(** * Interactive grid background: the grid animator

    A shallow embedding of the React component [InteractiveGridPattern]
    and of the hook [useIsMobile]. The component exists in three variants:
    - the final one, src/components/ui/interactive-grid-pattern.tsx
      (module [Final]): last-hovered reference, dwell timer of 400,
      removal timers of 500 and 100, a cleanup effect;
    - the responsive one, second in src/unnamed/part_000 (module
      [Responsive]): last-hovered reference, dwell timer of 100, handlers
      detached on narrow viewports;
    - the first one, first in src/unnamed/part_000 (module [First]).
    [getNeighbors] and the loops of the state updaters are the same text
    in the variants and are defined once.

    Conventions of the embedding:
    - JavaScript numbers are idealised: pointer coordinates and the cell
      size are rationals ([Q]), [Math.floor] is [Qfloor]; the cell counts
      [horizontal] and [vertical] and the cell indices are integers ([Z]).
      Rounding, infinities and NaN (a cell size of zero) are not modelled.
    - [squaresState : Record<number, SquareState>] is a finite map
      [gmap Z SquareState]; [Object.keys] and [Object.values] enumerate
      integer keys in ascending order.
    - [setTimeout] and [clearTimeout] act on an explicit host state (the
      table of pending one-shot timers, the next identifier, a logical
      clock). A timer's closure is represented by a constructor of
      [Callback] that names the closure and its captured [index].
    - A state updater passed to [setSquaresState] is run once, when it is
      dispatched, on the current mapping. React renders later, as an event
      of its own ([Final.Render]); a render that follows a state change
      re-runs the effect of the final variant, cleanup first. *)

From Stdlib Require Import ZArith QArith Qround Lia Lqa.
From stdpp Require Import base option list sorting gmap strings.

Local Open Scope Z_scope.

(** ** Data model *)

(** [SquareState['state']] *)
Inductive Phase := highlighted | fading.

(** Identifiers returned by [setTimeout]. The source types them as
    [NodeJS.Timeout], whose values are always truthy: the guard
    [if (square.timeoutId)] tests that the optional field is present. *)
Definition TimeoutId := positive.

(** [type SquareState = { state; timeoutId? }] *)
Record SquareState := mkSquare { state : Phase; timeoutId : option TimeoutId }.

Global Instance Phase_eq_dec : EqDecision Phase.
Proof. solve_decision. Defined.

Global Instance SquareState_eq_dec : EqDecision SquareState.
Proof. solve_decision. Defined.

(** The closures handed to [setTimeout], each with the [index] (or [key])
    it captures:
    - [DwellTimeout]: interactive-grid-pattern.tsx lines 103-121;
    - [RemovalTimeout]: lines 108-116 and, with the same body, 141-149;
    - [FadeTimeout]: the closure of the earlier variants, which only
      rewrites the entry to [{ state: 'fading' }]. *)
Inductive Callback :=
  | DwellTimeout (index : Z)
  | RemovalTimeout (index : Z)
  | FadeTimeout (index : Z).

Definition target (cb : Callback) : Z :=
  match cb with
  | DwellTimeout index | RemovalTimeout index | FadeTimeout index => index
  end.

Record Timer := mkTimer { due : Z; callback : Callback }.

Global Instance Callback_eq_dec : EqDecision Callback.
Proof. solve_decision. Defined.

Global Instance Timer_eq_dec : EqDecision Timer.
Proof. solve_decision. Defined.

(** The host's timer facility. *)
Record Host := mkHost {
  pending : gmap TimeoutId Timer;
  nextId : TimeoutId;
  now : Z
}.

(** ** A state monad over the host, for code that sets and clears timers *)

Definition M (A : Type) : Type := Host -> A * Host.

Definition ret {A} (a : A) : M A := fun h => (a, h).

Definition bind {A B} (m : M A) (k : A -> M B) : M B :=
  fun h => let (a, h') := m h in k a h'.

Notation "x <- m ;; k" := (bind m (fun x => k))
  (at level 100, m at next level, right associativity).
Notation "m ;;; k" := (bind m (fun _ => k))
  (at level 100, right associativity).

(** [for (const a of l) { b = f(b, a) }] *)
Fixpoint forOf {A B} (f : B -> A -> M B) (b : B) (l : list A) : M B :=
  match l with
  | [] => ret b
  | a :: l' => b' <- f b a ;; forOf f b' l'
  end.

Definition setTimeout (cb : Callback) (delay : Z) : M TimeoutId :=
  fun h =>
    (nextId h,
     {| pending := <[nextId h := {| due := now h + delay; callback := cb |}]> (pending h);
        nextId := Pos.succ (nextId h);
        now := now h |}).

Definition clearTimeout (t : TimeoutId) : M unit :=
  fun h =>
    (tt, {| pending := delete t (pending h); nextId := nextId h; now := now h |}).

(** [if (square?.timeoutId) clearTimeout(square.timeoutId)] *)
Definition clearIfSet (square : option SquareState) : M unit :=
  match square with
  | Some {| timeoutId := Some t |} => clearTimeout t
  | _ => ret tt
  end.

(** [Object.keys] of a record with integer keys: ascending order. *)
Definition objectKeys (m : gmap Z SquareState) : list Z :=
  merge_sort Z.le (elements (dom m)).

(** [Object.values] *)
Definition objectValues (m : gmap Z SquareState) : list SquareState :=
  omap (fun k => m !! k) (objectKeys m).

(** The two sources of randomness of a pointer move: the outcome of
    [sort(() => 0.5 - Math.random())] and the value of the [Math.random()]
    that sizes the slice. *)
Record Random := mkRandom { sortRandom : list Z -> list Z; random : Q }.

Definition validRandom (rng : Random) : Prop :=
  (forall l, sortRandom rng l ≡ₚ l) /\ (0 <= random rng)%Q /\ (random rng < 1)%Q.

(** [arr.slice(0, k)] for [0 <= k] *)
Definition slice0 (k : Z) (l : list Z) : list Z := take (Z.to_nat k) l.

(** ** The grid: coordinate mapping and neighbour selection *)

Section Grid.

(** The props [width], [height] and [squares = [horizontal, vertical]]. *)
Variables (width height : Q) (horizontal vertical : Z).

(** [Math.floor(y / height) * horizontal + Math.floor(x / width)] *)
Definition cellIndex (x y : Q) : Z :=
  Qfloor (y / height) * horizontal + Qfloor (x / width).

(** The body of the inner loop of [getNeighbors]. *)
Definition neighborAt (row col i j : Z) : list Z :=
  if (i =? 0) && (j =? 0) then []
  else
    let newRow := row + i in
    let newCol := col + j in
    if (0 <=? newRow) && (newRow <? vertical) && (0 <=? newCol) && (newCol <? horizontal)
    then [newRow * horizontal + newCol]
    else [].

Definition getNeighbors (x y : Q) : list Z :=
  let col := Qfloor (x / width) in
  let row := Qfloor (y / height) in
  i ← [-1; 0; 1]; j ← [-1; 0; 1]; neighborAt row col i j.

End Grid.

(** ** State updaters

    The functions passed to [setSquaresState]: each maps the previous
    mapping to the next one, setting and clearing timers on the way. *)

Definition Updater : Type := gmap Z SquareState -> M (gmap Z SquareState).

(** The updater inside [RemovalTimeout] (lines 109-115 and 142-148):
    delete the entry if it is still fading. *)
Definition removalUpdater (index : Z) : Updater := fun currentInner =>
  let updatedInner := currentInner in
  match updatedInner !! index with
  | Some {| state := fading |} => ret (delete index updatedInner)
  | _ => ret updatedInner
  end.

(** The updater inside [DwellTimeout] (lines 104-120): a still
    highlighted entry becomes fading and gets a removal timer. *)
Definition dwellUpdater (index : Z) : Updater := fun current =>
  let updated := current in
  match updated !! index with
  | Some ({| state := highlighted |} as square) =>
      let updated := <[index := {| state := fading; timeoutId := timeoutId square |}]> updated in
      removalTimeoutId <- setTimeout (RemovalTimeout index) 500 ;;
      ret (alter (fun sq => {| state := state sq; timeoutId := Some removalTimeoutId |})
             index updated)
  | _ => ret updated
  end.

(** The updater inside [FadeTimeout] (earlier variants):
    [if (updated[index]) updated[index] = { state: 'fading' }]. *)
Definition fadeUpdater (index : Z) : Updater := fun current =>
  let updated := current in
  match updated !! index with
  | Some _ => ret (<[index := {| state := fading; timeoutId := None |}]> updated)
  | None => ret updated
  end.

Definition callbackUpdater (cb : Callback) : Updater :=
  match cb with
  | DwellTimeout index => dwellUpdater index
  | RemovalTimeout index => removalUpdater index
  | FadeTimeout index => fadeUpdater index
  end.

(** One iteration of the loop of [handleMouseMove] (lines 97-124).
    [newStates] is the copy of the previous mapping, which the loop only
    reads; [squaresToUpdate] collects the new entries. The variants differ
    in the closure they schedule ([mkCallback]) and in its delay
    ([dwell]). *)
Definition highlightSquare (mkCallback : Z -> Callback) (dwell : Z)
    (newStates : gmap Z SquareState)
    (squaresToUpdate : gmap Z SquareState) (index : Z) : M (gmap Z SquareState) :=
  let square := newStates !! index in
  clearIfSet square ;;;
  timeoutId <- setTimeout (mkCallback index) dwell ;;
  ret (<[index := {| state := highlighted; timeoutId := Some timeoutId |}]> squaresToUpdate).

(** The updater of [handleMouseMove]; the result is
    [{ ...newStates, ...squaresToUpdate }]. *)
Definition highlightUpdater (mkCallback : Z -> Callback) (dwell : Z)
    (randomNeighbors : list Z) : Updater := fun prevState =>
  let newStates := prevState in
  squaresToUpdate <- forOf (highlightSquare mkCallback dwell newStates) ∅ randomNeighbors ;;
  ret (squaresToUpdate ∪ newStates).

(** One iteration of the loop of the final [handleMouseLeave]
    (lines 133-152). [key] comes from [Object.keys(newStates)], so the
    entry is present. *)
Definition fadeSquare (newStates : gmap Z SquareState) (key : Z) : M (gmap Z SquareState) :=
  match newStates !! key with
  | None => ret newStates
  | Some square =>
      clearIfSet (Some square) ;;;
      match state square with
      | highlighted =>
          let newStates := <[key := {| state := fading; timeoutId := timeoutId square |}]> newStates in
          removalTimeoutId <- setTimeout (RemovalTimeout key) 100 ;;
          ret (alter (fun sq => {| state := state sq; timeoutId := Some removalTimeoutId |})
                 key newStates)
      | fading => ret newStates
      end
  end.

Definition leaveUpdater : Updater := fun prevState =>
  let newStates := prevState in
  forOf fadeSquare newStates (objectKeys newStates).

(** One iteration of the loop of the earlier [handleMouseLeave]:
    the timer is cleared and a highlighted entry is replaced by
    [{ state: 'fading' }]. *)
Definition fadeSquareSimple (newStates : gmap Z SquareState) (key : Z) : M (gmap Z SquareState) :=
  match newStates !! key with
  | None => ret newStates
  | Some square =>
      clearIfSet (Some square) ;;;
      match state square with
      | highlighted => ret (<[key := {| state := fading; timeoutId := None |}]> newStates)
      | fading => ret newStates
      end
  end.

Definition leaveUpdaterSimple : Updater := fun prevState =>
  let newStates := prevState in
  forOf fadeSquareSimple newStates (objectKeys newStates).

(** The cleanup function returned by the effect (lines 48-54), closed
    over the [squaresState] of the render that created it. *)
Definition effectCleanup (squaresState : gmap Z SquareState) : M unit :=
  forOf (fun (_ : unit) square => clearIfSet (Some square)) tt (objectValues squaresState).

(** ** Pointer events and the handlers of the rendered [<svg>] *)

Inductive PointerEvent :=
  | Move (x y : Q) (rng : Random)
  | Leave.

(** The two event props of the [<svg>] element; [None] is [undefined]:
    no handler is attached. *)
Record SvgProps (C : Type) := mkSvgProps {
  onMouseMove : option (Q -> Q -> Random -> C -> C);
  onMouseLeave : option (C -> C)
}.
Arguments onMouseMove {C} _.
Arguments onMouseLeave {C} _.

(** The browser delivers a pointer event to the attached handler, if any. *)
Definition dispatch {C} (props : SvgProps C) (ev : PointerEvent) (c : C) : C :=
  match ev with
  | Move x y rng =>
      match onMouseMove props with Some handler => handler x y rng c | None => c end
  | Leave =>
      match onMouseLeave props with Some handler => handler c | None => c end
  end.

(** Timer [t] with record [tm] is the next one the host runs: no pending
    timer is due earlier, nor due at the same time and set before it. *)
Definition firesNext (t : TimeoutId) (tm : Timer) (h : Host) : Prop :=
  pending h !! t = Some tm /\
  map_Forall (fun t' tm' => due tm < due tm' \/ (due tm = due tm' /\ (t <= t')%positive))
    (pending h).

Global Instance firesNext_dec t tm h : Decision (firesNext t tm h).
Proof. unfold firesNext. apply _. Defined.

(** The clock may advance to [t]: [t] is not in the past and no pending
    timer is due before [t]. *)
Definition mayElapse (t : Z) (h : Host) : Prop :=
  now h <= t /\ map_Forall (fun _ tm => t <= due tm) (pending h).

Global Instance mayElapse_dec t h : Decision (mayElapse t h).
Proof. unfold mayElapse. apply _. Defined.

(** ** The final variant: src/components/ui/interactive-grid-pattern.tsx *)

Module Final.

(** The state of a mounted component instance. [rendered] is the
    [squaresState] of the last committed render, which the cleanup closure
    of the effect holds; [renderPending] tells that [setSquaresState] was
    called since. *)
Record Component := mkComponent {
  squaresState : gmap Z SquareState;
  lastSquareRef : option Z;
  rendered : gmap Z SquareState;
  renderPending : bool;
  host : Host
}.

(** [useState({})], [useRef(null)] and the first render. *)
Definition mount : Component :=
  {| squaresState := ∅; lastSquareRef := None; rendered := ∅; renderPending := false;
     host := {| pending := ∅; nextId := 1%positive; now := 0 |} |}.

Definition setSquaresState (u : Updater) (c : Component) : Component :=
  let (s, h) := u (squaresState c) (host c) in
  {| squaresState := s; lastSquareRef := lastSquareRef c; rendered := rendered c;
     renderPending := true; host := h |}.

(** The effect of lines 46-55 has the dependency list [[squaresState]]:
    when a render commits a changed [squaresState], React first runs the
    cleanup of the previous effect, on the mapping of the previous
    render, and then installs the effect of the new render. *)
Definition render (c : Component) : Component :=
  let (_, h) := effectCleanup (rendered c) (host c) in
  {| squaresState := squaresState c; lastSquareRef := lastSquareRef c;
     rendered := squaresState c; renderPending := false; host := h |}.

(** Unmounting runs the cleanup of the last committed effect; what is
    left is the host. *)
Definition unmount (c : Component) : Host :=
  snd (effectCleanup (rendered c) (host c)).

(** The host runs the callback of timer [t], which leaves the table. *)
Definition timerFires (t : TimeoutId) (tm : Timer) (c : Component) : Component :=
  let h := host c in
  let c := {| squaresState := squaresState c; lastSquareRef := lastSquareRef c;
              rendered := rendered c; renderPending := renderPending c;
              host := {| pending := delete t (pending h); nextId := nextId h;
                         now := Z.max (now h) (due tm) |} |} in
  setSquaresState (callbackUpdater (callback tm)) c.

Definition elapse (t : Z) (c : Component) : Component :=
  let h := host c in
  {| squaresState := squaresState c; lastSquareRef := lastSquareRef c;
     rendered := rendered c; renderPending := renderPending c;
     host := {| pending := pending h; nextId := nextId h; now := t |} |}.

(** What can happen to a mounted component. *)
Inductive Event :=
  | Pointer (ev : PointerEvent)
  | Timeout (t : TimeoutId)
  | Elapse (t : Z)
  | Render.

Definition validEvent (e : Event) : Prop :=
  match e with
  | Pointer (Move _ _ rng) => validRandom rng
  | _ => True
  end.

Section Props.

Variables (width height : Q) (horizontal vertical : Z).

(** Lines 75-128. [x] and [y] are the pointer coordinates relative to the
    bounding rectangle. *)
Definition handleMouseMove (x y : Q) (rng : Random) (c : Component) : Component :=
  let currentSquare := cellIndex width height horizontal x y in
  if decide (Some currentSquare = lastSquareRef c) then c
  else
    let c := {| squaresState := squaresState c; lastSquareRef := Some currentSquare;
                rendered := rendered c; renderPending := renderPending c; host := host c |} in
    let neighbors := getNeighbors width height horizontal vertical x y in
    let randomNeighbors :=
      slice0 (Qfloor (random rng * 2) + 4) (sortRandom rng neighbors) in
    setSquaresState (highlightUpdater DwellTimeout 400 randomNeighbors) c.

(** Lines 130-156. *)
Definition handleMouseLeave (c : Component) : Component :=
  let c := setSquaresState leaveUpdater c in
  {| squaresState := squaresState c; lastSquareRef := None;
     rendered := rendered c; renderPending := renderPending c; host := host c |}.

(** Lines 163-164: both handlers are attached unconditionally. *)
Definition svgProps : SvgProps Component :=
  {| onMouseMove := Some handleMouseMove; onMouseLeave := Some handleMouseLeave |}.

(** One event; [None] when the event cannot happen in state [c]. *)
Definition handle (e : Event) (c : Component) : option Component :=
  match e with
  | Pointer ev => Some (dispatch svgProps ev c)
  | Timeout t =>
      match pending (host c) !! t with
      | Some tm => if decide (firesNext t tm (host c)) then Some (timerFires t tm c) else None
      | None => None
      end
  | Elapse t => if decide (mayElapse t (host c)) then Some (elapse t c) else None
  | Render => if renderPending c then Some (render c) else None
  end.

Fixpoint run (es : list Event) (c : Component) : option Component :=
  match es with
  | [] => Some c
  | e :: es' => match handle e c with Some c' => run es' c' | None => None end
  end.

Inductive reachable : Component -> Prop :=
  | reachable_mount : reachable mount
  | reachable_step e c c' :
      reachable c -> validEvent e -> handle e c = Some c' -> reachable c'.

End Props.

End Final.

(** ** The hook [useIsMobile]: src/hooks/use-is-mobile.ts *)

Module UseIsMobile.

Definition defaultMaxWidth : Z := 1024.

(** [useState(false)] *)
Definition initial : bool := false.

(** [checkIsMobile]: the value given to [setIsMobile], from
    [window.innerWidth]. It runs when the effect is installed and at
    every [resize] event. *)
Definition checkIsMobile (maxWidth innerWidth : Z) : bool :=
  bool_decide (innerWidth < maxWidth).

End UseIsMobile.

(** ** The responsive variant (second variant of src/unnamed/part_000) *)

Module Responsive.

Record Component := mkComponent {
  squaresState : gmap Z SquareState;
  lastHoveredSquareRef : option Z;
  isMobile : bool;
  host : Host
}.

Definition mount : Component :=
  {| squaresState := ∅; lastHoveredSquareRef := None; isMobile := UseIsMobile.initial;
     host := {| pending := ∅; nextId := 1%positive; now := 0 |} |}.

Definition setSquaresState (u : Updater) (c : Component) : Component :=
  let (s, h) := u (squaresState c) (host c) in
  {| squaresState := s; lastHoveredSquareRef := lastHoveredSquareRef c;
     isMobile := isMobile c; host := h |}.

(** [const isMobile = useIsMobile()] after the hook's check ran with the
    window [innerWidth] pixels wide. *)
Definition viewportChecked (innerWidth : Z) (c : Component) : Component :=
  {| squaresState := squaresState c; lastHoveredSquareRef := lastHoveredSquareRef c;
     isMobile := UseIsMobile.checkIsMobile UseIsMobile.defaultMaxWidth innerWidth;
     host := host c |}.

Section Props.

Variables (width height : Q) (horizontal vertical : Z).

Definition handleMouseMove (x y : Q) (rng : Random) (c : Component) : Component :=
  let col := Qfloor (x / width) in
  let row := Qfloor (y / height) in
  let index := row * horizontal + col in
  if decide (Some index = lastHoveredSquareRef c) then c
  else
    let c := {| squaresState := squaresState c; lastHoveredSquareRef := Some index;
                isMobile := isMobile c; host := host c |} in
    let neighbors := getNeighbors width height horizontal vertical x y in
    let randomNeighbors :=
      slice0 (Qfloor (random rng * 6) + 2) (sortRandom rng neighbors) in
    setSquaresState (highlightUpdater FadeTimeout 100 randomNeighbors) c.

Definition handleMouseLeave (c : Component) : Component :=
  let c := {| squaresState := squaresState c; lastHoveredSquareRef := None;
              isMobile := isMobile c; host := host c |} in
  setSquaresState leaveUpdaterSimple c.

(** [onMouseMove={isMobile ? undefined : handleMouseMove}] and
    [onMouseLeave={isMobile ? undefined : handleMouseLeave}]. *)
Definition svgProps (c : Component) : SvgProps Component :=
  {| onMouseMove := if isMobile c then None else Some handleMouseMove;
     onMouseLeave := if isMobile c then None else Some handleMouseLeave |}.

End Props.

End Responsive.

(** ** The first variant (first variant of src/unnamed/part_000)

    It keeps no last-hovered reference and ignores the viewport. *)

Module First.

Record Component := mkComponent {
  squaresState : gmap Z SquareState;
  host : Host
}.

Definition mount : Component :=
  {| squaresState := ∅; host := {| pending := ∅; nextId := 1%positive; now := 0 |} |}.

Definition setSquaresState (u : Updater) (c : Component) : Component :=
  let (s, h) := u (squaresState c) (host c) in
  {| squaresState := s; host := h |}.

Section Props.

Variables (width height : Q) (horizontal vertical : Z).

Definition handleMouseMove (x y : Q) (rng : Random) (c : Component) : Component :=
  let neighbors := getNeighbors width height horizontal vertical x y in
  let randomNeighbors :=
    slice0 (Qfloor (random rng * 3) + 0) (sortRandom rng neighbors) in
  setSquaresState (highlightUpdater FadeTimeout 400 randomNeighbors) c.

Definition handleMouseLeave (c : Component) : Component :=
  setSquaresState leaveUpdaterSimple c.

Definition svgProps : SvgProps Component :=
  {| onMouseMove := Some handleMouseMove; onMouseLeave := Some handleMouseLeave |}.

End Props.

End First.


(** ** Rendering

    The [<rect>] elements that the component returns, one per cell. The
    geometry is the same text in the three variants. *)

Section Cells.

Variables (width height : Q) (horizontal vertical : Z).

(** [(index % horizontal) * width]; [%] is the remainder of the
    truncating division. *)
Definition cellX (index : Z) : Q := inject_Z (Z.rem index horizontal) * width.

(** [Math.floor(index / horizontal) * height] *)
Definition cellY (index : Z) : Q :=
  inject_Z (Qfloor (inject_Z index / inject_Z horizontal)) * height.

(** The indices of [Array.from({ length: horizontal * vertical })]: an
    empty array when the length is not positive. *)
Definition cellIndices : list Z := seqZ 0 (horizontal * vertical).

End Cells.

(** A rendered [<rect>]: [key], [x], [y], [width], [height], the truthy
    arguments handed to the class-name composer [cn] (whose code is not part
    of the sources), and [style.stroke] ([None] is [undefined]). *)
Record Rect := mkRect {
  rectKey : Z;
  rectX : Q;
  rectY : Q;
  rectWidth : Q;
  rectHeight : Q;
  rectClasses : list string;
  rectStroke : option string
}.

(** The view of the final variant: lines 167-197. *)
Module FinalView.

(** [style.stroke] of a cell, from [squaresState[index]]. *)
Definition stroke (squareState : option SquareState) : option string :=
  match state <$> squareState with
  | Some highlighted => Some "#A5AD3D"
  | Some fading => None
  | None => Some "rgb(156 163 175 / 0.1)"
  end.

Section Props.

Variables (width height : Q) (horizontal vertical : Z) (squaresClassName : option string).

Definition rect (squaresState : gmap Z SquareState) (index : Z) : Rect :=
  let x := cellX width horizontal index in
  let y := cellY height horizontal index in
  let squareState := squaresState !! index in
  {| rectKey := index; rectX := x; rectY := y; rectWidth := width; rectHeight := height;
     rectClasses :=
       ["fill-transparent"]
       ++ (if decide (state <$> squareState = Some fading) then ["fading-out"] else [])
       ++ option_list squaresClassName;
     rectStroke := stroke squareState |}.

Definition rects (squaresState : gmap Z SquareState) : list Rect :=
  rect squaresState <$> cellIndices horizontal vertical.

End Props.

End FinalView.

(** The view of the first variant: its strokes. *)
Module FirstView.

Definition stroke (squareState : option SquareState) : string :=
  match state <$> squareState with
  | Some highlighted => "#DEEA51"
  | Some fading => "rgb(156 163 175 / 0.3)"
  | None => "rgb(156 163 175 / 0.3)"
  end.

End FirstView.

(** ** The hook [useIsMobile] as a state machine

    src/hooks/use-is-mobile.ts, lines 5-20: the state [isMobile], the
    effect with the dependency list [[maxWidth]] and the [resize] listener
    it registers on [window]. *)

Module IsMobileHook.

(** A [resize] listener: the function [checkIsMobile] that one run of the
    effect creates. Functions of different runs are different objects
    ([closureId]); each captures the [maxWidth] of its run. *)
Record Listener := mkListener { closureId : positive; capturedMaxWidth : Z }.

Global Instance Listener_eq_dec : EqDecision Listener.
Proof. solve_decision. Defined.

(** What the hook sees of [window]: [innerWidth] and the [resize]
    listeners, in the order of their registration. *)
Record Window := mkWindow { innerWidth : Z; resizeListeners : list Listener }.

(** The hook instance: the state [isMobile], the listener that the cleanup
    of the installed effect will remove ([None] when no effect is
    installed), and the supply of function identities. *)
Record Hook := mkHook {
  isMobile : bool;
  installed : option Listener;
  nextClosure : positive;
  window : Window
}.

(** [window.addEventListener('resize', l)]: a listener that is already
    registered is not added again. *)
Definition addEventListener (l : Listener) (w : Window) : Window :=
  {| innerWidth := innerWidth w;
     resizeListeners :=
       if decide (l ∈ resizeListeners w) then resizeListeners w
       else resizeListeners w ++ [l] |}.

(** [window.removeEventListener('resize', l)] *)
Definition removeEventListener (l : Listener) (w : Window) : Window :=
  {| innerWidth := innerWidth w;
     resizeListeners := filter (fun l' => l' <> l) (resizeListeners w) |}.

(** The first render: [useState(false)]; no effect has run yet. *)
Definition firstRender (w : Window) : Hook :=
  {| isMobile := UseIsMobile.initial; installed := None; nextClosure := 1%positive;
     window := w |}.

(** A call of the listener [l]: [setIsMobile(window.innerWidth < maxWidth)]. *)
Definition call (l : Listener) (h : Hook) : Hook :=
  {| isMobile := UseIsMobile.checkIsMobile (capturedMaxWidth l) (innerWidth (window h));
     installed := installed h; nextClosure := nextClosure h; window := window h |}.

(** The body of the effect (lines 9-13) for the current [maxWidth]. *)
Definition runEffect (maxWidth : Z) (h : Hook) : Hook :=
  let checkIsMobile := {| closureId := nextClosure h; capturedMaxWidth := maxWidth |} in
  let h := call checkIsMobile h in
  {| isMobile := isMobile h; installed := Some checkIsMobile;
     nextClosure := Pos.succ (nextClosure h);
     window := addEventListener checkIsMobile (window h) |}.

(** The cleanup of the installed effect (lines 14-16). *)
Definition cleanup (h : Hook) : Hook :=
  match installed h with
  | Some checkIsMobile =>
      {| isMobile := isMobile h; installed := None; nextClosure := nextClosure h;
         window := removeEventListener checkIsMobile (window h) |}
  | None => h
  end.

(** What can happen to the hook of a mounted component. *)
Inductive Event :=
  | Resize (innerWidth : Z)
  | Rerender (maxWidth : Z).

(** The window is resized: [innerWidth] changes and every registered
    listener is called, in order. *)
Definition resize (width : Z) (h : Hook) : Hook :=
  let h := {| isMobile := isMobile h; installed := installed h; nextClosure := nextClosure h;
              window := {| innerWidth := width;
                           resizeListeners := resizeListeners (window h) |} |} in
  foldl (fun h l => call l h) h (resizeListeners (window h)).

(** The component renders again with [maxWidth]: React re-runs the effect,
    cleanup first, when the dependency [maxWidth] differs from the one of
    the installed effect. *)
Definition rerender (maxWidth : Z) (h : Hook) : Hook :=
  match installed h with
  | Some checkIsMobile =>
      if decide (capturedMaxWidth checkIsMobile = maxWidth) then h
      else runEffect maxWidth (cleanup h)
  | None => runEffect maxWidth h
  end.

Definition handle (e : Event) (h : Hook) : Hook :=
  match e with
  | Resize width => resize width h
  | Rerender maxWidth => rerender maxWidth h
  end.

Definition run (es : list Event) (h : Hook) : Hook :=
  foldl (fun h e => handle e h) h es.

(** Mounting: the first render, then the effect. *)
Definition mount (maxWidth : Z) (w : Window) : Hook := runEffect maxWidth (firstRender w).

Definition unmount (h : Hook) : Hook := cleanup h.

End IsMobileHook.

(** ** The responsive variant as a state machine *)

Module ResponsiveEvents.

(** The host runs the callback of timer [t], which leaves the table. *)
Definition timerFires (t : TimeoutId) (tm : Timer) (c : Responsive.Component) :
    Responsive.Component :=
  let h := Responsive.host c in
  let c := {| Responsive.squaresState := Responsive.squaresState c;
              Responsive.lastHoveredSquareRef := Responsive.lastHoveredSquareRef c;
              Responsive.isMobile := Responsive.isMobile c;
              Responsive.host := {| pending := delete t (pending h); nextId := nextId h;
                                    now := Z.max (now h) (due tm) |} |} in
  Responsive.setSquaresState (callbackUpdater (callback tm)) c.

Definition elapse (t : Z) (c : Responsive.Component) : Responsive.Component :=
  let h := Responsive.host c in
  {| Responsive.squaresState := Responsive.squaresState c;
     Responsive.lastHoveredSquareRef := Responsive.lastHoveredSquareRef c;
     Responsive.isMobile := Responsive.isMobile c;
     Responsive.host := {| pending := pending h; nextId := nextId h; now := t |} |}.

Inductive Event :=
  | Pointer (ev : PointerEvent)
  | Timeout (t : TimeoutId)
  | Elapse (t : Z)
  | Viewport (innerWidth : Z).

Definition validEvent (e : Event) : Prop :=
  match e with
  | Pointer (Move _ _ rng) => validRandom rng
  | _ => True
  end.

Section Props.

Variables (width height : Q) (horizontal vertical : Z).

(** One event; [None] when the event cannot happen in state [c]. A
    pointer event goes to the handler that the last render attached. *)
Definition handle (e : Event) (c : Responsive.Component) : option Responsive.Component :=
  match e with
  | Pointer ev =>
      Some (dispatch (Responsive.svgProps width height horizontal vertical c) ev c)
  | Timeout t =>
      match pending (Responsive.host c) !! t with
      | Some tm =>
          if decide (firesNext t tm (Responsive.host c)) then Some (timerFires t tm c)
          else None
      | None => None
      end
  | Elapse t =>
      if decide (mayElapse t (Responsive.host c)) then Some (elapse t c) else None
  | Viewport innerWidth => Some (Responsive.viewportChecked innerWidth c)
  end.

Fixpoint run (es : list Event) (c : Responsive.Component) : option Responsive.Component :=
  match es with
  | [] => Some c
  | e :: es' => match handle e c with Some c' => run es' c' | None => None end
  end.

Inductive reachable : Responsive.Component -> Prop :=
  | reachable_mount : reachable Responsive.mount
  | reachable_step e c c' :
      reachable c -> validEvent e -> handle e c = Some c' -> reachable c'.

End Props.

End ResponsiveEvents.
(** ** Notions of the specification *)



(** The identity shuffle and the smallest random number: a concrete
    outcome of the randomness, used to exhibit runs. *)
Definition firstRandom : Random := {| sortRandom := fun l => l; random := 0%Q |}.

(** The identity shuffle with [Math.random()] returning one half. *)
Definition halfRandom : Random := {| sortRandom := fun l => l; random := (1 # 2)%Q |}.


(** The table of pending timers after [clearIfSet square]. *)
Definition cleared (square : option SquareState) (p : gmap TimeoutId Timer) :
    gmap TimeoutId Timer :=
  match square with
  | Some {| timeoutId := Some t |} => delete t p
  | _ => p
  end.
Arguments cleared : simpl never.

(** Every pending timer was set by an earlier [setTimeout]. *)
Definition issued (h : Host) : Prop :=
  forall t tm, pending h !! t = Some tm -> (t < nextId h)%positive.

(** Every identifier stored in the mapping was returned by an earlier
    [setTimeout]. *)
Definition handlesIssued (s : gmap Z SquareState) (h : Host) : Prop :=
  forall i sq t, s !! i = Some sq -> timeoutId sq = Some t -> (t < nextId h)%positive.

(** No entry of [s] at a cell of [l] stores the identifier [t]. *)
Definition notStoredAt (s : gmap Z SquareState) (l : list Z) (t : TimeoutId) : Prop :=
  forall i sq, i ∈ l -> s !! i = Some sq -> timeoutId sq <> Some t.

(** Timer [t] is pending and its callback acts on cell [index]. *)
Definition pendingFor (h : Host) (index : Z) (t : TimeoutId) : Prop :=
  exists tm, pending h !! t = Some tm /\ target (callback tm) = index.


(** In the final variant, the mapping records timer [t]: the entry of the
    cell it acts on stores [t], in the phase that the callback expects. *)
Definition recorded (s : gmap Z SquareState) (t : TimeoutId) (tm : Timer) : Prop :=
  match callback tm with
  | DwellTimeout index => s !! index = Some {| state := highlighted; timeoutId := Some t |}
  | RemovalTimeout index => s !! index = Some {| state := fading; timeoutId := Some t |}
  | FadeTimeout _ => False
  end.

(** The invariant of the final variant. *)
Record consistent (c : Final.Component) : Prop := mkConsistent {
  pending_recorded :
    forall t tm, pending (Final.host c) !! t = Some tm -> recorded (Final.squaresState c) t tm;
  pending_issued : issued (Final.host c);
  handles_issued : handlesIssued (Final.squaresState c) (Final.host c);
  rendered_current : Final.renderPending c = false -> Final.rendered c = Final.squaresState c
}.

(** Events of the host and of React, as opposed to pointer events. *)
Definition notPointer (e : Final.Event) : Prop :=
  match e with
  | Final.Pointer _ => False
  | _ => True
  end.

(** The phase of a cell; [None] is the implicit idle phase. *)
Definition phaseOf (s : gmap Z SquareState) (index : Z) : option Phase :=
  state <$> s !! index.

(** *** Example runs

    Grids of cells of size 10. *)

(** A 3 x 1 grid; the pointer enters cell 0, whose only neighbour, cell 1,
    is highlighted. *)
Definition cellOneHighlighted : Final.Component :=
  Final.handleMouseMove 10 10 3 1 5 5 firstRandom Final.mount.

(** A 4 x 1 grid. The pointer enters cell 0 at time 0 (cell 1 is
    highlighted) and cell 3 at time 100 (cell 2 is highlighted); React
    renders after each. *)
Definition twoMoves : list Final.Event :=
  [Final.Pointer (Move 5 5 firstRandom); Final.Render; Final.Elapse 100;
   Final.Pointer (Move 35 5 firstRandom); Final.Render].

Definition afterTwoMoves : Final.Component :=
  default Final.mount (Final.run 10 10 4 1 twoMoves Final.mount).

(** What follows when the pointer stays where it is: the timers of cell 2
    fire when due, and time goes on. *)
Definition thenIdle : list Final.Event :=
  [Final.Elapse 500; Final.Timeout 2%positive; Final.Render;
   Final.Elapse 1000; Final.Timeout 3%positive; Final.Render; Final.Elapse 100000].

(** A 2 x 1 grid. The pointer enters cell 0 at time 0, cell 1 is
    highlighted and starts fading at time 400. *)
Definition untilFading : list Final.Event :=
  [Final.Pointer (Move 5 5 firstRandom); Final.Render; Final.Elapse 400;
   Final.Timeout 1%positive; Final.Render; Final.Elapse 450].

Definition cellOneFading : Final.Component :=
  default Final.mount (Final.run 10 10 2 1 untilFading Final.mount).

(** *** Further example states *)

(** The 4 x 1 grid after the second pointer move of [twoMoves], before
    React has rendered it: the last render still holds the mapping of the
    first move. *)
Definition beforeSecondRender : Final.Component :=
  default Final.mount (Final.run 10 10 4 1 (take 4 twoMoves) Final.mount).


(** The invariant of the hook while it is mounted: its one listener is the
    only one registered, and the state agrees with the window. *)
Record hookSettled (h : IsMobileHook.Hook) : Prop := mkHookSettled {
  settled_listener :
    exists l, IsMobileHook.installed h = Some l /\
      IsMobileHook.resizeListeners (IsMobileHook.window h) = [l] /\
      (IsMobileHook.closureId l < IsMobileHook.nextClosure h)%positive;
  settled_state :
    forall l, IsMobileHook.installed h = Some l ->
      IsMobileHook.isMobile h
        = bool_decide (IsMobileHook.innerWidth (IsMobileHook.window h)
                       < IsMobileHook.capturedMaxWidth l)
}.

(** In the responsive variant, the mapping records timer [t]: it is a fade
    timer and the entry of its cell is highlighted and stores [t]. *)
Definition recordedFade (s : gmap Z SquareState) (t : TimeoutId) (tm : Timer) : Prop :=
  match callback tm with
  | FadeTimeout index => s !! index = Some {| state := highlighted; timeoutId := Some t |}
  | _ => False
  end.

(** The invariant of the responsive variant. *)
Record consistentResponsive (c : Responsive.Component) : Prop := mkConsistentResponsive {
  fade_recorded :
    forall t tm, pending (Responsive.host c) !! t = Some tm ->
      recordedFade (Responsive.squaresState c) t tm;
  fade_issued : issued (Responsive.host c);
  fade_handles : handlesIssued (Responsive.squaresState c) (Responsive.host c);
  fading_plain :
    forall i sq, Responsive.squaresState c !! i = Some sq -> state sq = fading ->
      timeoutId sq = None
}.

(** The [maxWidth] of the last render and the [innerWidth] after the last
    resize, along a list of events of the hook. *)
Definition lastMaxWidth (maxWidth : Z) (es : list IsMobileHook.Event) : Z :=
  foldl (fun m e => match e with IsMobileHook.Rerender m' => m' | _ => m end) maxWidth es.

Definition lastInnerWidth (innerWidth : Z) (es : list IsMobileHook.Event) : Z :=
  foldl (fun w e => match e with IsMobileHook.Resize w' => w' | _ => w end) innerWidth es.

(** The responsive variant on a 2 x 1 grid: the pointer enters cell 0 and
    cell 1 is highlighted; then its timer fires at time 100, the pointer
    leaves, and time goes on. *)
Definition responsiveHighlighted : Responsive.Component :=
  Responsive.handleMouseMove 10 10 2 1 5 5 firstRandom Responsive.mount.

Definition responsiveIdle : list ResponsiveEvents.Event :=
  [ResponsiveEvents.Elapse 100; ResponsiveEvents.Timeout 1%positive;
   ResponsiveEvents.Pointer Leave; ResponsiveEvents.Elapse 100000].

Definition responsiveFaded : Responsive.Component :=
  default Responsive.mount
    (ResponsiveEvents.run 10 10 2 1 responsiveIdle responsiveHighlighted).
(** ** Properties of the grid *)

Section GridFacts.

Variables (width height : Q) (horizontal vertical : Z).


(** A cell index determines the cell, for columns inside the grid. *)
Lemma index_inj (r c r' c' : Z) :
  0 <= c < horizontal -> 0 <= c' < horizontal ->
  r * horizontal + c = r' * horizontal + c' -> r = r' /\ c = c'.
Proof.
  intros Hc Hc' Heq.
  assert (r = r') as -> by nia. lia.
Qed.

Lemma elem_of_neighborAt (row col i j n : Z) :
  n ∈ neighborAt horizontal vertical row col i j <->
  (i <> 0 \/ j <> 0) /\ 0 <= row + i < vertical /\ 0 <= col + j < horizontal /\
  n = (row + i) * horizontal + (col + j).
Proof.
  unfold neighborAt.
  destruct (i =? 0) eqn:Hi, (j =? 0) eqn:Hj; simpl;
    try (rewrite elem_of_nil; lia);
    (destruct (0 <=? row + i) eqn:H1, (row + i <? vertical) eqn:H2,
       (0 <=? col + j) eqn:H3, (col + j <? horizontal) eqn:H4; simpl;
     rewrite ?elem_of_nil, ?list_elem_of_singleton; lia).
Qed.

Lemma elem_of_getNeighbors (x y : Q) (n : Z) :
  n ∈ getNeighbors width height horizontal vertical x y <->
  exists i j, -1 <= i <= 1 /\ -1 <= j <= 1 /\
    n ∈ neighborAt horizontal vertical (Qfloor (y / height)) (Qfloor (x / width)) i j.
Proof.
  unfold getNeighbors. rewrite list_elem_of_bind. split.
  - intros (i & Hn & Hi). apply list_elem_of_bind in Hn as (j & Hn & Hj).
    exists i, j. repeat split; try exact Hn;
      set_unfold; lia.
  - intros (i & j & Hi & Hj & Hn). exists i. split.
    + apply list_elem_of_bind. exists j. split; [exact Hn|]. set_unfold; lia.
    + set_unfold; lia.
Qed.

Lemma NoDup_neighborAt (row col i j : Z) :
  NoDup (neighborAt horizontal vertical row col i j).
Proof.
  unfold neighborAt. repeat case_match; auto using NoDup_nil_2, NoDup_singleton.
Qed.

Lemma NoDup_getNeighbors (x y : Q) :
  NoDup (getNeighbors width height horizontal vertical x y).
Proof.
  unfold getNeighbors. apply NoDup_bind.
  - intros i i' n _ _ Hn Hn'.
    apply list_elem_of_bind in Hn as (j & Hn & _).
    apply list_elem_of_bind in Hn' as (j' & Hn' & _).
    apply elem_of_neighborAt in Hn as (_ & _ & Hc & ->).
    apply elem_of_neighborAt in Hn' as (_ & _ & Hc' & Heq).
    apply index_inj in Heq; lia.
  - intros i _. apply NoDup_bind.
    + intros j j' n _ _ Hn Hn'.
      apply elem_of_neighborAt in Hn as (_ & _ & Hc & ->).
      apply elem_of_neighborAt in Hn' as (_ & _ & Hc' & Heq).
      apply index_inj in Heq; lia.
    + intros j _. apply NoDup_neighborAt.
    + repeat constructor; set_unfold; lia.
  - repeat constructor; set_unfold; lia.
Qed.

Lemma getNeighbors_in_grid (x y : Q) (n : Z) :
  n ∈ getNeighbors width height horizontal vertical x y -> 0 <= n < horizontal * vertical.
Proof.
  intros (i & j & _ & _ & Hn)%elem_of_getNeighbors.
  apply elem_of_neighborAt in Hn as (_ & Hr & Hc & ->). nia.
Qed.

End GridFacts.

Lemma validRandom_firstRandom : validRandom firstRandom.
Proof.
  split; [intros l; reflexivity|]. split; [unfold Qle|unfold Qlt]; simpl; lia.
Qed.






(** ** Timers: what the loops do to the host *)

Lemma clearIfSet_eq (square : option SquareState) (h : Host) :
  clearIfSet square h =
    (tt, {| pending := cleared square (pending h); nextId := nextId h; now := now h |}).
Proof. destruct h, square as [[? [?|]]|]; reflexivity. Qed.

Lemma cleared_lookup_Some square p t tm :
  cleared square p !! t = Some tm <->
  p !! t = Some tm /\ forall sq, square = Some sq -> timeoutId sq <> Some t.
Proof.
  destruct square as [[ph [t'|]]|]; unfold cleared.
  - rewrite lookup_delete_Some. split.
    + intros [Hne Hp]. split; [done|]. intros sq [= <-]. simpl. congruence.
    + intros [Hp Hsq]. split; [|done]. intros ->. by eapply Hsq.
  - split; [intros Hp; split; [done|]; by intros sq [= <-]|tauto].
  - split; [intros Hp; split; [done|]; by intros sq [=]|tauto].
Qed.

Lemma highlightSquare_eq mk dwell newStates acc index h :
  highlightSquare mk dwell newStates acc index h =
    (<[index := {| state := highlighted; timeoutId := Some (nextId h) |}]> acc,
     {| pending := <[nextId h := {| due := now h + dwell; callback := mk index |}]>
                     (cleared (newStates !! index) (pending h));
        nextId := Pos.succ (nextId h);
        now := now h |}).
Proof.
  unfold highlightSquare, bind. rewrite clearIfSet_eq. reflexivity.
Qed.

Lemma notStoredAt_cons s a l t :
  notStoredAt s (a :: l) t <->
  (forall sq, s !! a = Some sq -> timeoutId sq <> Some t) /\ notStoredAt s l t.
Proof.
  unfold notStoredAt. split.
  - intros H. split; [intros sq; apply H; left|intros i sq Hi; apply H; by right].
  - intros [Ha Hl] i sq [->|Hi]%elem_of_cons; [apply Ha|by apply Hl].
Qed.

Lemma notStoredAt_fresh s h l :
  handlesIssued s h -> notStoredAt s l (nextId h).
Proof. intros Hs i sq _ Hi Ht. pose proof (Hs i sq _ Hi Ht). lia. Qed.

Lemma highlight_loop mk dwell (s : gmap Z SquareState) (l : list Z) :
  NoDup l ->
  forall acc h acc' h',
  issued h -> handlesIssued s h ->
  forOf (highlightSquare mk dwell s) acc l h = (acc', h') ->
  now h' = now h /\ (nextId h <= nextId h')%positive /\ issued h' /\
  (forall i, i ∉ l -> acc' !! i = acc !! i) /\
  (forall i, i ∈ l -> exists t,
      acc' !! i = Some {| state := highlighted; timeoutId := Some t |} /\
      pending h' !! t = Some {| due := now h + dwell; callback := mk i |} /\
      (nextId h <= t)%positive) /\
  (forall t tm, pending h' !! t = Some tm ->
      ((t < nextId h)%positive /\ pending h !! t = Some tm /\ notStoredAt s l t) \/
      ((nextId h <= t)%positive /\ exists i, i ∈ l /\
       tm = {| due := now h + dwell; callback := mk i |} /\
       acc' !! i = Some {| state := highlighted; timeoutId := Some t |})) /\
  (forall t tm, pending h !! t = Some tm -> notStoredAt s l t ->
      pending h' !! t = Some tm).
Proof.
  induction 1 as [|a l Ha Hl IH]; intros acc h acc' h' Hiss Hs Hrun; simpl in Hrun.
  - injection Hrun as <- <-. repeat split; try done; try lia.
    + intros i Hi. by apply not_elem_of_nil in Hi.
    + intros t tm Hp. left. split; [by eapply Hiss|]. split; [done|].
      intros i sq Hi. by apply not_elem_of_nil in Hi.
  - unfold bind in Hrun. rewrite highlightSquare_eq in Hrun.
    set (n := nextId h) in *.
    set (new := {| due := now h + dwell; callback := mk a |}) in *.
    apply IH in Hrun as (Hnow & Hnext & Hiss' & Hframe & Hnew & Hpend & Hkeep);
      simpl in *.
    + assert (acc' !! a = Some {| state := highlighted; timeoutId := Some n |}) as Hacc.
      { rewrite Hframe by done. apply lookup_insert_eq. }
      assert (pending h' !! n = Some new) as Hn.
      { apply Hkeep; [apply lookup_insert_eq|].
        intros i sq _ Hi Ht. pose proof (Hs i sq _ Hi Ht). lia. }
      split; [done|]. split; [lia|]. split; [done|].
      split; [|split; [|split]].
      * intros i Hi. apply not_elem_of_cons in Hi as [Hia Hil].
        rewrite Hframe by done. by rewrite lookup_insert_ne.
      * intros i [->|Hi]%elem_of_cons.
        -- exists n. split; [done|]. split; [done|lia].
        -- destruct (Hnew i Hi) as (t & ? & ? & ?). exists t.
           split; [done|]. split; [done|lia].
      * intros t tm Hp. destruct (Hpend t tm Hp) as [(Hlt & Hp1 & Hns)|(Hge & i & Hi & -> & Hi')].
        -- destruct (decide (t = n)) as [->|Hne].
           ++ rewrite lookup_insert_eq in Hp1. injection Hp1 as <-.
              right. split; [lia|]. exists a. split; [left|done].
           ++ rewrite lookup_insert_ne in Hp1 by done.
              apply cleared_lookup_Some in Hp1 as [Hp0 Hsa].
              left. split; [by eapply Hiss|]. split; [done|].
              apply notStoredAt_cons. split; [|done]. intros sq Hsq. by apply Hsa.
        -- right. split; [lia|]. exists i. split; [by right|done].
      * intros t tm Hp [Hsa Hns]%notStoredAt_cons. apply Hkeep; [|done].
        assert (t <> n) by (apply Hiss in Hp; lia).
        rewrite lookup_insert_ne by done. apply cleared_lookup_Some.
        split; [done|]. intros sq Hsq. by apply Hsa.
    + intros t tm Hp. simpl in *. destruct (decide (t = n)) as [->|Hne]; [lia|].
      rewrite lookup_insert_ne in Hp by done.
      apply cleared_lookup_Some in Hp as [Hp _]. apply Hiss in Hp. lia.
    + intros i sq t Hi Ht. simpl. specialize (Hs i sq t Hi Ht). lia.
Qed.

Lemma highlightUpdater_spec mk dwell (l : list Z) (s s' : gmap Z SquareState) h h' :
  NoDup l -> issued h -> handlesIssued s h ->
  highlightUpdater mk dwell l s h = (s', h') ->
  now h' = now h /\ (nextId h <= nextId h')%positive /\ issued h' /\
  handlesIssued s' h' /\
  (forall i, i ∉ l -> s' !! i = s !! i) /\
  (forall i, i ∈ l -> exists t,
      s' !! i = Some {| state := highlighted; timeoutId := Some t |} /\
      pending h' !! t = Some {| due := now h + dwell; callback := mk i |} /\
      (nextId h <= t)%positive) /\
  (forall t tm, pending h' !! t = Some tm ->
      ((t < nextId h)%positive /\ pending h !! t = Some tm /\ notStoredAt s l t) \/
      ((nextId h <= t)%positive /\ exists i, i ∈ l /\
       tm = {| due := now h + dwell; callback := mk i |} /\
       s' !! i = Some {| state := highlighted; timeoutId := Some t |})) /\
  (forall t tm, pending h !! t = Some tm -> notStoredAt s l t ->
      pending h' !! t = Some tm).
Proof.
  intros Hl Hiss Hs Hrun. unfold highlightUpdater, bind in Hrun.
  destruct (forOf _ _ _ _) as [acc' h1] eqn:Hloop. injection Hrun as <- <-.
  apply highlight_loop in Hloop as (Hnow & Hnext & Hiss' & Hframe & Hnew & Hpend & Hkeep);
    [|done..].
  assert (forall i, i ∉ l -> (acc' ∪ s) !! i = s !! i) as Hout.
  { intros i Hi. apply lookup_union_r. rewrite Hframe by done. apply lookup_empty. }
  assert (forall i, i ∈ l -> exists t,
      (acc' ∪ s) !! i = Some {| state := highlighted; timeoutId := Some t |} /\
      pending h1 !! t = Some {| due := now h + dwell; callback := mk i |} /\
      (nextId h <= t)%positive) as Hin.
  { intros i Hi. destruct (Hnew i Hi) as (t & Hacc & Hp & Hge).
    exists t. split; [by apply lookup_union_Some_l|done]. }
  repeat split; try done.
  - intros i sq t Hi Ht. destruct (decide (i ∈ l)) as [Hil|Hil].
    + destruct (Hin i Hil) as (t' & Hacc & Hp & _).
      rewrite Hacc in Hi. injection Hi as <-. simpl in Ht. injection Ht as <-.
      by eapply Hiss'.
    + rewrite Hout in Hi by done. pose proof (Hs i sq t Hi Ht). lia.
  - intros t tm Hp. destruct (Hpend t tm Hp) as [?|(Hge & i & Hi & -> & Hacc)]; [by left|].
    right. split; [done|]. exists i. split; [done|]. split; [done|].
    by apply lookup_union_Some_l.
Qed.

(** [Object.keys] lists each key of the mapping once. *)
Lemma elem_of_objectKeys (m : gmap Z SquareState) (k : Z) :
  k ∈ objectKeys m <-> is_Some (m !! k).
Proof.
  unfold objectKeys. rewrite merge_sort_Permutation, elem_of_elements.
  apply elem_of_dom.
Qed.

Lemma NoDup_objectKeys (m : gmap Z SquareState) : NoDup (objectKeys m).
Proof.
  unfold objectKeys. rewrite merge_sort_Permutation. apply NoDup_elements.
Qed.

Lemma elem_of_objectValues (m : gmap Z SquareState) (sq : SquareState) :
  sq ∈ objectValues m <-> exists k, m !! k = Some sq.
Proof.
  unfold objectValues. rewrite list_elem_of_omap. split.
  - intros (k & _ & Hk). by exists k.
  - intros (k & Hk). exists k. split; [|done]. apply elem_of_objectKeys. by exists sq.
Qed.

Lemma fadeSquare_eq (m : gmap Z SquareState) (k : Z) (sq : SquareState) (h : Host) :
  m !! k = Some sq ->
  fadeSquare m k h =
    match state sq with
    | highlighted =>
        (<[k := {| state := fading; timeoutId := Some (nextId h) |}]> m,
         {| pending := <[nextId h := {| due := now h + 100; callback := RemovalTimeout k |}]>
                         (cleared (Some sq) (pending h));
            nextId := Pos.succ (nextId h);
            now := now h |})
    | fading =>
        (m, {| pending := cleared (Some sq) (pending h); nextId := nextId h; now := now h |})
    end.
Proof.
  intros Hk. unfold fadeSquare, bind. rewrite Hk, clearIfSet_eq.
  destruct (state sq); [|reflexivity].
  unfold setTimeout, ret. simpl. by rewrite alter_insert_eq.
Qed.

Lemma fadeSquare_absent (m : gmap Z SquareState) (k : Z) (h : Host) :
  m !! k = None -> fadeSquare m k h = (m, h).
Proof. intros Hk. unfold fadeSquare. by rewrite Hk. Qed.

Lemma notStoredAt_agree (m m1 : gmap Z SquareState) (l : list Z) (t : TimeoutId) :
  (forall i, i ∈ l -> m1 !! i = m !! i) -> notStoredAt m1 l t <-> notStoredAt m l t.
Proof.
  intros Hag. unfold notStoredAt.
  split; intros H i sq Hi Hsq; apply (H i sq Hi); [by rewrite Hag|by rewrite <- Hag].
Qed.

Lemma notStoredAt_nil (m : gmap Z SquareState) (t : TimeoutId) : notStoredAt m [] t.
Proof. intros i sq Hi. by apply not_elem_of_nil in Hi. Qed.

Lemma leave_loop (l : list Z) :
  NoDup l ->
  forall m h m' h',
  issued h -> handlesIssued m h ->
  forOf fadeSquare m l h = (m', h') ->
  now h' = now h /\ (nextId h <= nextId h')%positive /\ issued h' /\
  handlesIssued m' h' /\
  (forall k, k ∉ l -> m' !! k = m !! k) /\
  (forall k, m !! k = None -> m' !! k = None) /\
  (forall k tid, m !! k = Some {| state := fading; timeoutId := tid |} ->
      m' !! k = Some {| state := fading; timeoutId := tid |}) /\
  (forall k tid, k ∈ l -> m !! k = Some {| state := highlighted; timeoutId := tid |} ->
      exists r, m' !! k = Some {| state := fading; timeoutId := Some r |} /\
        pending h' !! r = Some {| due := now h + 100; callback := RemovalTimeout k |} /\
        (nextId h <= r)%positive) /\
  (forall t tm, pending h' !! t = Some tm ->
      ((t < nextId h)%positive /\ pending h !! t = Some tm /\ notStoredAt m l t) \/
      ((nextId h <= t)%positive /\ exists k, k ∈ l /\
       tm = {| due := now h + 100; callback := RemovalTimeout k |} /\
       m' !! k = Some {| state := fading; timeoutId := Some t |})) /\
  (forall t tm, pending h !! t = Some tm -> notStoredAt m l t -> pending h' !! t = Some tm).
Proof.
  induction 1 as [|a l Ha Hl IH]; intros m h m' h' Hiss Hs Hrun; simpl in Hrun.
  - injection Hrun as <- <-. repeat split; try done; try lia.
    + intros k tid Hk. by apply not_elem_of_nil in Hk.
    + intros t tm Hp. left. split; [by eapply Hiss|]. split; [done|apply notStoredAt_nil].
  - unfold bind in Hrun. destruct (m !! a) as [sq|] eqn:Hma.
    2:{ (* no entry at [a]: the iteration changes nothing *)
      rewrite fadeSquare_absent in Hrun by done.
      apply IH in Hrun as (Hnow & Hnext & Hiss' & Hs' & Hframe & Hnone & Hfad & Hhl & Hpend & Hkeep);
        [|done..].
      repeat split; try done.
      - intros k Hk. apply not_elem_of_cons in Hk as [_ Hk]. by apply Hframe.
      - intros k tid [->|Hk]%elem_of_cons Hmk; [congruence|by eapply Hhl].
      - intros t tm Hp. destruct (Hpend t tm Hp) as [(? & ? & Hns)|(? & k & ? & ? & ?)].
        + left. split; [done|]. split; [done|]. apply notStoredAt_cons. split; [|done].
          intros sq. congruence.
        + right. split; [done|]. exists k. split; [by right|done].
      - intros t tm Hp [_ Hns]%notStoredAt_cons. by apply Hkeep. }
    rewrite (fadeSquare_eq m a sq h Hma) in Hrun.
    set (n := nextId h) in *.
    destruct sq as [[|] tid]; simpl in Hrun.
    + (* a highlighted entry: it fades and gets a removal timer *)
      set (new := {| due := now h + 100; callback := RemovalTimeout a |}) in *.
      set (m1 := <[a := {| state := fading; timeoutId := Some n |}]> m) in *.
      assert (forall i, i ∈ l -> m1 !! i = m !! i) as Hag.
      { intros i Hi. apply lookup_insert_ne. by intros ->. }
      apply IH in Hrun as (Hnow & Hnext & Hiss' & Hs' & Hframe & Hnone & Hfad & Hhl & Hpend & Hkeep);
        simpl in *.
      * assert (m' !! a = Some {| state := fading; timeoutId := Some n |}) as Hm'a.
        { rewrite Hframe by done. apply lookup_insert_eq. }
        assert (pending h' !! n = Some new) as Hn.
        { apply Hkeep; [apply lookup_insert_eq|]. apply (notStoredAt_agree m); [done|].
          by eapply notStoredAt_fresh. }
        split; [done|]. split; [lia|]. split; [done|]. split; [done|].
        split; [|split; [|split; [|split; [|split]]]].
        -- intros k Hk. apply not_elem_of_cons in Hk as [Hka Hkl].
           rewrite Hframe by done. by apply lookup_insert_ne.
        -- intros k Hk. apply Hnone. unfold m1. rewrite lookup_insert_ne; [done|]. congruence.
        -- intros k tid' Hk. apply Hfad. unfold m1. rewrite lookup_insert_ne; [done|]. congruence.
        -- intros k tid' [->|Hk]%elem_of_cons Hmk.
           ++ exists n. split; [done|]. split; [done|lia].
           ++ rewrite <- Hag in Hmk by done.
              destruct (Hhl k tid' Hk Hmk) as (r & ? & ? & ?).
              exists r. split; [done|]. split; [done|lia].
        -- intros t tm Hp.
           destruct (Hpend t tm Hp) as [(Hlt & Hp1 & Hns)|(Hge & k & Hk & -> & Hk')].
           ++ destruct (decide (t = n)) as [->|Hne].
              ** rewrite lookup_insert_eq in Hp1. injection Hp1 as <-.
                 right. split; [lia|]. exists a. split; [left|done].
              ** rewrite lookup_insert_ne in Hp1 by done.
                 apply cleared_lookup_Some in Hp1 as [Hp0 Hsa].
                 left. split; [by eapply Hiss|]. split; [done|].
                 apply notStoredAt_cons. split.
                 --- intros sq Hsq. apply Hsa. congruence.
                 --- by apply (notStoredAt_agree m m1).
           ++ right. split; [lia|]. exists k. split; [by right|done].
        -- intros t tm Hp [Hsa Hns]%notStoredAt_cons. apply Hkeep.
           ++ assert (t <> n) by (apply Hiss in Hp; lia).
              rewrite lookup_insert_ne by done. apply cleared_lookup_Some.
              split; [done|]. intros sq [= <-]. by apply Hsa.
           ++ by apply (notStoredAt_agree m m1).
      * intros t tm Hp. simpl in *. destruct (decide (t = n)) as [->|Hne]; [lia|].
        rewrite lookup_insert_ne in Hp by done.
        apply cleared_lookup_Some in Hp as [Hp _]. apply Hiss in Hp. lia.
      * intros i sq t Hi Ht. simpl. destruct (decide (i = a)) as [->|Hne].
        -- unfold m1 in Hi. rewrite lookup_insert_eq in Hi. injection Hi as <-.
           simpl in Ht. injection Ht as <-. lia.
        -- unfold m1 in Hi. rewrite lookup_insert_ne in Hi by done.
           pose proof (Hs i sq t Hi Ht). lia.
    + (* a fading entry: its timer is cleared and nothing else happens *)
      apply IH in Hrun as (Hnow & Hnext & Hiss' & Hs' & Hframe & Hnone & Hfad & Hhl & Hpend & Hkeep);
        simpl in *.
      * repeat split; try done.
        -- intros k Hk. apply not_elem_of_cons in Hk as [_ Hk]. by apply Hframe.
        -- intros k tid' [->|Hk]%elem_of_cons Hmk; [congruence|by eapply Hhl].
        -- intros t tm Hp.
           destruct (Hpend t tm Hp) as [(Hlt & Hp1 & Hns)|(Hge & k & Hk & -> & Hk')].
           ++ apply cleared_lookup_Some in Hp1 as [Hp0 Hsa].
              left. split; [done|]. split; [done|].
              apply notStoredAt_cons. split; [|done].
              intros sq Hsq. apply Hsa. congruence.
           ++ right. split; [done|]. exists k. split; [by right|done].
        -- intros t tm Hp [Hsa Hns]%notStoredAt_cons. apply Hkeep; [|done].
           apply cleared_lookup_Some. split; [done|]. intros sq [= <-]. by apply Hsa.
      * intros t tm Hp. simpl in *.
        apply cleared_lookup_Some in Hp as [Hp _]. by eapply Hiss.
      * done.
Qed.

Lemma cleanup_loop (vals : list SquareState) :
  forall h h',
  forOf (fun (_ : unit) square => clearIfSet (Some square)) tt vals h = (tt, h') ->
  now h' = now h /\ nextId h' = nextId h /\
  (forall t tm, pending h' !! t = Some tm <->
     pending h !! t = Some tm /\ forall sq, sq ∈ vals -> timeoutId sq <> Some t).
Proof.
  induction vals as [|sq vals IH]; intros h h' Hrun; cbn [forOf] in Hrun.
  - unfold ret in Hrun. injection Hrun as <-. split; [done|]. split; [done|]. intros t tm. split; [|tauto].
    intros Hp. split; [done|]. intros sq Hsq. by apply not_elem_of_nil in Hsq.
  - unfold bind in Hrun. rewrite clearIfSet_eq in Hrun.
    apply IH in Hrun as (Hnow & Hnext & Hpend); simpl in *.
    split; [done|]. split; [done|]. intros t tm.
    rewrite Hpend, cleared_lookup_Some. split.
    + intros [[Hp Hsq] Hvals]. split; [done|].
      intros sq' [->|Hin]%elem_of_cons; [by apply Hsq|by apply Hvals].
    + intros [Hp Hvals]. split; [split; [done|]|].
      * intros sq' [= <-]. apply Hvals. left.
      * intros sq' Hin. apply Hvals. by right.
Qed.

Lemma effectCleanup_spec (s : gmap Z SquareState) (h : Host) :
  now (snd (effectCleanup s h)) = now h /\
  nextId (snd (effectCleanup s h)) = nextId h /\
  (forall t tm, pending (snd (effectCleanup s h)) !! t = Some tm <->
     pending h !! t = Some tm /\
     forall i sq, s !! i = Some sq -> timeoutId sq <> Some t).
Proof.
  unfold effectCleanup. destruct (forOf _ _ _ _) as [[] h'] eqn:Hrun.
  apply cleanup_loop in Hrun as (Hnow & Hnext & Hpend). simpl.
  split; [done|]. split; [done|]. intros t tm. rewrite Hpend.
  split; intros [Hp Hs]; (split; [done|]).
  - intros i sq Hi. apply Hs, elem_of_objectValues. by exists i.
  - intros sq (i & Hi)%elem_of_objectValues. by eapply Hs.
Qed.

(** ** The invariant of the final variant *)

Lemma recorded_unique (s : gmap Z SquareState) (t1 t2 : TimeoutId) (tm1 tm2 : Timer) :
  recorded s t1 tm1 -> recorded s t2 tm2 ->
  target (callback tm1) = target (callback tm2) -> t1 = t2.
Proof.
  unfold recorded.
  destruct (callback tm1), (callback tm2); simpl; intros H1 H2 <-;
    try contradiction; congruence.
Qed.


Lemma recorded_frame (s s' : gmap Z SquareState) (t : TimeoutId) (tm : Timer) :
  s' !! target (callback tm) = s !! target (callback tm) ->
  recorded s t tm -> recorded s' t tm.
Proof. unfold recorded. destruct (callback tm); simpl; congruence. Qed.

Lemma recorded_stored (s : gmap Z SquareState) (t : TimeoutId) (tm : Timer) :
  recorded s t tm ->
  exists sq, s !! target (callback tm) = Some sq /\ timeoutId sq = Some t.
Proof. unfold recorded. destruct (callback tm); simpl; [eauto..|done]. Qed.

Lemma consistent_mount : consistent Final.mount.
Proof. by split. Qed.

Lemma NoDup_slice0 (k : Z) (l : list Z) : NoDup l -> NoDup (slice0 k l).
Proof. intros Hl. eapply sublist_NoDup; [exact Hl|apply sublist_take]. Qed.

Lemma consistent_highlight (l : list Z) (c : Final.Component) :
  NoDup l -> consistent c ->
  consistent (Final.setSquaresState (highlightUpdater DwellTimeout 400 l) c).
Proof.
  intros Hl [Hrec Hiss Hs Hrend]. unfold Final.setSquaresState.
  destruct (highlightUpdater _ _ _ _ _) as [s' h'] eqn:Hrun.
  apply highlightUpdater_spec in Hrun
    as (Hnow & Hnext & Hiss' & Hs' & Hout & Hin & Hpend & Hkeep); [|done..].
  split; simpl; [|done..].
  intros t tm Hp. destruct (Hpend t tm Hp) as [(Hlt & Hp0 & Hns)|(Hge & i & Hi & -> & Hsi)].
  - apply Hrec in Hp0. eapply recorded_frame; [|exact Hp0].
    apply Hout. intros Hin'.
    destruct (recorded_stored _ _ _ Hp0) as (sq & Hsq & Ht). by eapply Hns.
  - exact Hsi.
Qed.

Lemma dwellUpdater_eq (index : Z) (current : gmap Z SquareState) (tid : option TimeoutId)
    (h : Host) :
  current !! index = Some {| state := highlighted; timeoutId := tid |} ->
  dwellUpdater index current h =
    (<[index := {| state := fading; timeoutId := Some (nextId h) |}]> current,
     {| pending := <[nextId h := {| due := now h + 500; callback := RemovalTimeout index |}]>
                     (pending h);
        nextId := Pos.succ (nextId h);
        now := now h |}).
Proof.
  intros Hi. unfold dwellUpdater, bind, setTimeout, ret. rewrite Hi. simpl.
  by rewrite alter_insert_eq.
Qed.

Lemma dwellUpdater_stale (index : Z) (current : gmap Z SquareState) (h : Host) :
  (forall tid, current !! index <> Some {| state := highlighted; timeoutId := tid |}) ->
  dwellUpdater index current h = (current, h).
Proof.
  intros Hi. unfold dwellUpdater. destruct (current !! index) as [[[|] tid]|] eqn:Hc;
    [by destruct (Hi tid)|done..].
Qed.

Lemma removalUpdater_eq (index : Z) (current : gmap Z SquareState) (tid : option TimeoutId)
    (h : Host) :
  current !! index = Some {| state := fading; timeoutId := tid |} ->
  removalUpdater index current h = (delete index current, h).
Proof. intros Hi. unfold removalUpdater. by rewrite Hi. Qed.

Lemma removalUpdater_stale (index : Z) (current : gmap Z SquareState) (h : Host) :
  (forall tid, current !! index <> Some {| state := fading; timeoutId := tid |}) ->
  removalUpdater index current h = (current, h).
Proof.
  intros Hi. unfold removalUpdater. destruct (current !! index) as [[[|] tid]|] eqn:Hc;
    [done|by destruct (Hi tid)|done].
Qed.

Lemma consistent_lastSquareRef (c : Final.Component) (last : option Z) :
  consistent c ->
  consistent {| Final.squaresState := Final.squaresState c; Final.lastSquareRef := last;
                Final.rendered := Final.rendered c;
                Final.renderPending := Final.renderPending c; Final.host := Final.host c |}.
Proof. intros [? ? ? ?]. by split. Qed.

Section FinalInvariant.

Variables (width height : Q) (horizontal vertical : Z).

Lemma NoDup_randomNeighbors (x y : Q) (rng : Random) (k : Z) :
  validRandom rng ->
  NoDup (slice0 k (sortRandom rng (getNeighbors width height horizontal vertical x y))).
Proof.
  intros [Hperm _]. apply NoDup_slice0. rewrite Hperm. apply NoDup_getNeighbors.
Qed.

Lemma consistent_handleMouseMove (x y : Q) (rng : Random) (c : Final.Component) :
  validRandom rng -> consistent c ->
  consistent (Final.handleMouseMove width height horizontal vertical x y rng c).
Proof.
  intros Hrng Hc. unfold Final.handleMouseMove. case_decide; [done|].
  apply consistent_highlight; [by apply NoDup_randomNeighbors|].
  by apply consistent_lastSquareRef.
Qed.

Lemma consistent_handleMouseLeave (c : Final.Component) :
  consistent c -> consistent (Final.handleMouseLeave c).
Proof.
  intros [Hrec Hiss Hs Hrend]. unfold Final.handleMouseLeave, Final.setSquaresState.
  destruct (leaveUpdater _ _) as [s' h'] eqn:Hrun. unfold leaveUpdater in Hrun.
  apply leave_loop in Hrun
    as (Hnow & Hnext & Hiss' & Hs' & Hframe & Hnone & Hfad & Hhl & Hpend & Hkeep);
    [|apply NoDup_objectKeys|done..].
  split; simpl; [|done..].
  intros t tm Hp. destruct (Hpend t tm Hp) as [(Hlt & Hp0 & Hns)|(Hge & k & Hk & -> & Hsk)].
  - apply Hrec in Hp0. destruct (recorded_stored _ _ _ Hp0) as (sq & Hsq & Ht).
    exfalso. eapply Hns; [|exact Hsq|exact Ht]. apply elem_of_objectKeys. by exists sq.
  - exact Hsk.
Qed.

Lemma consistent_timerFires (t : TimeoutId) (tm : Timer) (c : Final.Component) :
  consistent c -> pending (Final.host c) !! t = Some tm ->
  consistent (Final.timerFires t tm c).
Proof.
  intros [Hrec Hiss Hs Hrend] Hp.
  pose proof (Hrec t tm Hp) as Ht.
  assert (forall t' tm', t' <> t -> pending (Final.host c) !! t' = Some tm' ->
            target (callback tm') <> target (callback tm)) as Hother.
  { intros t' tm' Hne Hp' Heq. apply Hne.
    eapply recorded_unique; [by apply Hrec..|done]. }
  unfold Final.timerFires, Final.setSquaresState. simpl.
  unfold recorded in Ht. destruct (callback tm) as [index|index|index] eqn:Hcb;
    simpl in *; [| |done].
  - rewrite (dwellUpdater_eq _ _ _ _ Ht). simpl.
    set (n := nextId (Final.host c)).
    split; unfold issued, handlesIssued; simpl; [| | |done].
    + intros t' tm' Hp'. destruct (decide (t' = n)) as [->|Hne].
      * rewrite lookup_insert_eq in Hp'. injection Hp' as <-.
        unfold recorded. simpl. apply lookup_insert_eq.
      * rewrite lookup_insert_ne in Hp' by done.
        apply lookup_delete_Some in Hp' as [Hne' Hp'].
        eapply recorded_frame; [|by apply Hrec].
        apply lookup_insert_ne. intros Heq. by eapply Hother.
    + intros t' tm' Hp'. simpl. destruct (decide (t' = n)) as [->|Hne]; [lia|].
      rewrite lookup_insert_ne in Hp' by done.
      apply lookup_delete_Some in Hp' as [_ Hp']. apply Hiss in Hp'. fold n in Hp'. lia.
    + intros i sq t' Hi Ht'. simpl. destruct (decide (i = index)) as [->|Hne].
      * rewrite lookup_insert_eq in Hi. injection Hi as <-. simpl in Ht'.
        injection Ht' as <-. lia.
      * rewrite lookup_insert_ne in Hi by done. pose proof (Hs i sq t' Hi Ht'). lia.
  - rewrite (removalUpdater_eq _ _ _ _ Ht). simpl.
    split; unfold issued, handlesIssued; simpl; [| | |done].
    + intros t' tm' Hp'. apply lookup_delete_Some in Hp' as [Hne' Hp'].
      eapply recorded_frame; [|by apply Hrec].
      apply lookup_delete_ne. intros Heq. by eapply Hother.
    + intros t' tm' Hp'. simpl. apply lookup_delete_Some in Hp' as [_ Hp']. by eapply Hiss.
    + intros i sq t' Hi Ht'. simpl. apply lookup_delete_Some in Hi as [_ Hi]. by eapply Hs.
Qed.

Lemma consistent_render (c : Final.Component) : consistent c -> consistent (Final.render c).
Proof.
  intros [Hrec Hiss Hs Hrend]. unfold Final.render.
  pose proof (effectCleanup_spec (Final.rendered c) (Final.host c)) as (Hnow & Hnext & Hpend).
  destruct (effectCleanup _ _) as [[] h']. simpl in *.
  split; unfold issued, handlesIssued; simpl; [| | |done].
  - intros t tm [Hp _]%Hpend. by apply Hrec.
  - intros t tm [Hp _]%Hpend. rewrite Hnext. by eapply Hiss.
  - intros i sq t Hi Ht. rewrite Hnext. by eapply Hs.
Qed.

Lemma consistent_elapse (t : Z) (c : Final.Component) :
  consistent c -> consistent (Final.elapse t c).
Proof. intros [? ? ? ?]. by split. Qed.

Lemma consistent_handle (e : Final.Event) (c c' : Final.Component) :
  consistent c -> Final.validEvent e ->
  Final.handle width height horizontal vertical e c = Some c' -> consistent c'.
Proof.
  intros Hc Hvalid Hstep. destruct e as [[x y rng|]|t|t|]; simpl in *.
  - injection Hstep as <-. by apply consistent_handleMouseMove.
  - injection Hstep as <-. by apply consistent_handleMouseLeave.
  - destruct (pending (Final.host c) !! t) as [tm|] eqn:Hp; [|done].
    case_decide; [|done]. injection Hstep as <-. by apply consistent_timerFires.
  - case_decide; [|done]. injection Hstep as <-. by apply consistent_elapse.
  - destruct (Final.renderPending c); [|done]. injection Hstep as <-.
    by apply consistent_render.
Qed.

Lemma reachable_consistent (c : Final.Component) :
  Final.reachable width height horizontal vertical c -> consistent c.
Proof.
  induction 1 as [|e c c' _ IH Hvalid Hstep]; [apply consistent_mount|].
  by eapply consistent_handle.
Qed.

End FinalInvariant.

(** ** Runs *)

Section FinalRuns.

Variables (width height : Q) (horizontal vertical : Z).

Lemma run_reachable (es : list Final.Event) (c c' : Final.Component) :
  Final.reachable width height horizontal vertical c ->
  Forall Final.validEvent es ->
  Final.run width height horizontal vertical es c = Some c' ->
  Final.reachable width height horizontal vertical c'.
Proof.
  intros Hc Hes. revert c Hc. induction Hes as [|e es He Hes IH]; intros c Hc Hrun;
    simpl in Hrun.
  - by injection Hrun as <-.
  - destruct (Final.handle _ _ _ _ e c) as [c1|] eqn:Hstep; [|done].
    eapply IH; [|exact Hrun]. by eapply Final.reachable_step.
Qed.

End FinalRuns.

Lemma valid_twoMoves : Forall Final.validEvent twoMoves.
Proof. repeat constructor; apply validRandom_firstRandom. Qed.

Lemma valid_untilFading : Forall Final.validEvent untilFading.
Proof. repeat constructor; apply validRandom_firstRandom. Qed.

Lemma run_twoMoves : Final.run 10 10 4 1 twoMoves Final.mount = Some afterTwoMoves.
Proof. vm_compute. reflexivity. Qed.

Lemma run_untilFading : Final.run 10 10 2 1 untilFading Final.mount = Some cellOneFading.
Proof. vm_compute. reflexivity. Qed.

Lemma reachable_cellOneHighlighted : Final.reachable 10 10 3 1 cellOneHighlighted.
Proof.
  apply (Final.reachable_step 10 10 3 1 (Final.Pointer (Move 5 5 firstRandom)) Final.mount).
  - apply Final.reachable_mount.
  - apply validRandom_firstRandom.
  - reflexivity.
Qed.

Lemma reachable_afterTwoMoves : Final.reachable 10 10 4 1 afterTwoMoves.
Proof.
  eapply run_reachable; [apply Final.reachable_mount|apply valid_twoMoves|apply run_twoMoves].
Qed.

Lemma reachable_cellOneFading : Final.reachable 10 10 2 1 cellOneFading.
Proof.
  eapply run_reachable;
    [apply Final.reachable_mount|apply valid_untilFading|apply run_untilFading].
Qed.

(** ** The highlight and fade lifecycle *)



(** Re-entering the neighbourhood of the highlighted cell 1 of the 3 x 1
    grid at time 0: its first timer (1) is cancelled and a second one (2)
    is pending. *)
Example retrigger_restarts_dwell :
  let c' := Final.handleMouseMove 10 10 3 1 25 5 firstRandom cellOneHighlighted in
  Final.squaresState cellOneHighlighted !! 1
    = Some {| state := highlighted; timeoutId := Some 1%positive |} /\
  Final.squaresState c' !! 1 = Some {| state := highlighted; timeoutId := Some 2%positive |} /\
  pending (Final.host c') !! 1%positive = None /\
  pending (Final.host c') !! 2%positive = Some {| due := 400; callback := DwellTimeout 1 |}.
Proof. vm_compute. repeat split. Qed.

(** C5: a pointer-leave event moves every highlighted cell to the fading
    phase, with a new removal timer due in 100 time units, and the timer
    that its entry stored is no longer pending; the last-hovered reference
    becomes empty; a cell absent from the mapping stays absent. The
    identifiers in the state are ones [setTimeout] has returned. *)
Theorem leave_fades_highlighted (c : Final.Component) :
  issued (Final.host c) -> handlesIssued (Final.squaresState c) (Final.host c) ->
  let c' := Final.handleMouseLeave c in
  Final.lastSquareRef c' = None /\
  (forall i tid,
     Final.squaresState c !! i = Some {| state := highlighted; timeoutId := tid |} ->
     (exists r,
        Final.squaresState c' !! i = Some {| state := fading; timeoutId := Some r |} /\
        pending (Final.host c') !! r
          = Some {| due := now (Final.host c) + 100; callback := RemovalTimeout i |}) /\
     (forall t, tid = Some t -> pending (Final.host c') !! t = None)) /\
  (forall i, Final.squaresState c !! i = None -> Final.squaresState c' !! i = None).
Proof.
  intros Hiss Hs c'. subst c'. unfold Final.handleMouseLeave, Final.setSquaresState.
  destruct (leaveUpdater _ _) as [s' h'] eqn:Hrun. unfold leaveUpdater in Hrun. simpl.
  apply leave_loop in Hrun
    as (Hnow & Hnext & Hiss' & Hs' & Hframe & Hnone & Hfad & Hhl & Hpend & Hkeep);
    [|apply NoDup_objectKeys|done..].
  split; [done|]. split; [|done].
  intros i tid Hi.
  assert (i ∈ objectKeys (Final.squaresState c)) as Hkey
    by (apply elem_of_objectKeys; eauto).
  split.
  - destruct (Hhl i tid Hkey Hi) as (r & Hr & Hp & _). by exists r.
  - intros t ->. destruct (pending h' !! t) as [tm|] eqn:Hp; [exfalso|done].
    destruct (Hpend t tm Hp) as [(_ & _ & Hns)|(Hge & _)].
    + by eapply Hns.
    + pose proof (Hs i _ t Hi eq_refl). lia.
Qed.

Lemma leave_fades_highlighted_witness :
  let c' := Final.handleMouseLeave cellOneHighlighted in
  Final.squaresState cellOneHighlighted !! 1
    = Some {| state := highlighted; timeoutId := Some 1%positive |} /\
  Final.lastSquareRef c' = None /\
  (forall i tid,
     Final.squaresState cellOneHighlighted !! i
       = Some {| state := highlighted; timeoutId := tid |} ->
     (exists r,
        Final.squaresState c' !! i = Some {| state := fading; timeoutId := Some r |} /\
        pending (Final.host c') !! r
          = Some {| due := now (Final.host cellOneHighlighted) + 100;
                    callback := RemovalTimeout i |}) /\
     (forall t, tid = Some t -> pending (Final.host c') !! t = None)) /\
  (forall i, Final.squaresState cellOneHighlighted !! i = None ->
     Final.squaresState c' !! i = None).
Proof.
  split; [reflexivity|].
  apply (leave_fades_highlighted cellOneHighlighted).
  - exact (pending_issued _ (reachable_consistent _ _ _ _ _ reachable_cellOneHighlighted)).
  - exact (handles_issued _ (reachable_consistent _ _ _ _ _ reachable_cellOneHighlighted)).
Defined.

(** C6: a pointer move whose cell index equals the last recorded one
    changes nothing: the mapping, the reference and the timers stay as
    they are. *)
Theorem same_cell_move_is_noop (width height : Q) (horizontal vertical : Z)
    (x y : Q) (rng : Random) (c : Final.Component) :
  Final.lastSquareRef c = Some (cellIndex width height horizontal x y) ->
  Final.handleMouseMove width height horizontal vertical x y rng c = c.
Proof.
  intros Hlast. unfold Final.handleMouseMove. by rewrite decide_True.
Qed.

Lemma same_cell_move_is_noop_witness :
  Final.lastSquareRef cellOneHighlighted = Some (cellIndex 10 10 3 7 2) /\
  Final.handleMouseMove 10 10 3 1 7 2 firstRandom cellOneHighlighted = cellOneHighlighted.
Proof.
  split; [reflexivity|].
  apply (same_cell_move_is_noop 10 10 3 1 7 2 firstRandom cellOneHighlighted).
  reflexivity.
Defined.

(** The responsive variant suppresses redundant moves in the same way. *)
Lemma responsive_same_cell_move_is_noop (width height : Q) (horizontal vertical : Z)
    (x y : Q) (rng : Random) (c : Responsive.Component) :
  Responsive.lastHoveredSquareRef c = Some (cellIndex width height horizontal x y) ->
  Responsive.handleMouseMove width height horizontal vertical x y rng c = c.
Proof.
  intros Hlast. unfold Responsive.handleMouseMove.
  change (Qfloor (y / height) * horizontal + Qfloor (x / width))
    with (cellIndex width height horizontal x y).
  by rewrite decide_True.
Qed.

(** The first variant has no such reference: a second move inside the
    same cell (here cell 0 of the 3 x 1 grid) clears the timer of the
    highlighted neighbour and sets a new one. *)
Example first_variant_repeats_work :
  let c1 := First.handleMouseMove 10 10 3 1 5 5 halfRandom First.mount in
  let c2 := First.handleMouseMove 10 10 3 1 7 2 halfRandom c1 in
  cellIndex 10 10 3 5 5 = cellIndex 10 10 3 7 2 /\
  First.squaresState c1 = {[ 1 := {| state := highlighted; timeoutId := Some 1%positive |} ]} /\
  First.squaresState c2 = {[ 1 := {| state := highlighted; timeoutId := Some 2%positive |} ]} /\
  pending (First.host c2) = {[ 2%positive := {| due := 400; callback := FadeTimeout 1 |} ]}.
Proof. vm_compute. repeat split. Qed.


(** ** Cells without a timer *)

(** A callback only touches the entry of its own cell, and the timers it
    sets are for that cell. *)
Lemma callbackUpdater_frame (cb : Callback) (s s' : gmap Z SquareState) (h h' : Host) :
  callbackUpdater cb s h = (s', h') ->
  (forall i, i <> target cb -> s' !! i = s !! i) /\
  (forall t tm, pending h' !! t = Some tm ->
     pending h !! t = Some tm \/ target (callback tm) = target cb).
Proof.
  destruct cb as [index|index|index]; simpl.
  - destruct (s !! index) as [[[|] tid]|] eqn:Hs.
    + rewrite (dwellUpdater_eq _ _ _ _ Hs). intros [= <- <-]. simpl. split.
      * intros i Hi. by apply lookup_insert_ne.
      * intros t tm Hp. destruct (decide (t = nextId h)) as [->|Hne].
        -- rewrite lookup_insert_eq in Hp. injection Hp as <-. by right.
        -- rewrite lookup_insert_ne in Hp by done. by left.
    + rewrite dwellUpdater_stale by (intros ?; congruence). intros [= <- <-]. auto.
    + rewrite dwellUpdater_stale by (intros ?; congruence). intros [= <- <-]. auto.
  - destruct (s !! index) as [[[|] tid]|] eqn:Hs.
    + rewrite removalUpdater_stale by (intros ?; congruence). intros [= <- <-]. auto.
    + rewrite (removalUpdater_eq _ _ _ _ Hs). intros [= <- <-]. split; [|auto].
      intros i Hi. by apply lookup_delete_ne.
    + rewrite removalUpdater_stale by (intros ?; congruence). intros [= <- <-]. auto.
  - unfold fadeUpdater, ret. destruct (s !! index); intros [= <- <-]; split; auto.
    intros i Hi. by apply lookup_insert_ne.
Qed.

Section QuietCell.

Variables (width height : Q) (horizontal vertical : Z).

(** When no pending timer acts on cell [i], no event other than a pointer
    event changes the entry of [i] or sets a timer for it. *)
Lemma quiet_cell_step (e : Final.Event) (c c' : Final.Component) (i : Z) :
  notPointer e ->
  Final.handle width height horizontal vertical e c = Some c' ->
  (forall t, ~ pendingFor (Final.host c) i t) ->
  Final.squaresState c' !! i = Final.squaresState c !! i /\
  (forall t, ~ pendingFor (Final.host c') i t).
Proof.
  intros He Hstep Hquiet. destruct e as [ev|t|t|]; simpl in *; [done| | |].
  - destruct (pending (Final.host c) !! t) as [tm|] eqn:Hp; [|done].
    case_decide; [|done]. injection Hstep as <-.
    assert (i <> target (callback tm)) as Hne.
    { intros ->. apply (Hquiet t). by exists tm. }
    unfold Final.timerFires, Final.setSquaresState. simpl.
    destruct (callbackUpdater _ _ _) as [s' h'] eqn:Hrun. simpl.
    apply callbackUpdater_frame in Hrun as [Hframe Hpend]. split; [by apply Hframe|].
    intros t' (tm' & Hp' & Ht'). destruct (Hpend t' tm' Hp') as [Hold|Hnew]; [|congruence].
    simpl in Hold. apply lookup_delete_Some in Hold as [_ Hold].
    apply (Hquiet t'). by exists tm'.
  - case_decide; [|done]. by injection Hstep as <-.
  - destruct (Final.renderPending c); [|done]. injection Hstep as <-.
    unfold Final.render.
    pose proof (effectCleanup_spec (Final.rendered c) (Final.host c)) as (_ & _ & Hpend).
    destruct (effectCleanup _ _) as [[] h']. simpl in *. split; [done|].
    intros t (tm & [Hp _]%Hpend & Ht). apply (Hquiet t). by exists tm.
Qed.

Lemma quiet_cell_run (es : list Final.Event) (c c' : Final.Component) (i : Z) :
  Forall notPointer es ->
  Final.run width height horizontal vertical es c = Some c' ->
  (forall t, ~ pendingFor (Final.host c) i t) ->
  Final.squaresState c' !! i = Final.squaresState c !! i.
Proof.
  intros Hes. revert c. induction Hes as [|e es He Hes IH]; intros c Hrun Hquiet;
    simpl in Hrun.
  - by injection Hrun as <-.
  - destruct (Final.handle _ _ _ _ e c) as [c1|] eqn:Hstep; [|done].
    destruct (quiet_cell_step e c c1 i He Hstep Hquiet) as [Heq Hquiet1].
    rewrite <- Heq. by apply IH.
Qed.

End QuietCell.

(** C7: what a pointer-leave event does to a cell that is already fading.
    Its entry stays as it is and the timer stored in it is no longer
    pending; but no new removal timer is set for it: no pending timer acts
    on the cell any more, and as long as no pointer event follows, the
    entry stays in the mapping, in the fading phase. *)
Theorem leave_strands_fading_cell (width height : Q) (horizontal vertical : Z)
    (c : Final.Component) (i : Z) (tid : option TimeoutId) :
  Final.reachable width height horizontal vertical c ->
  Final.squaresState c !! i = Some {| state := fading; timeoutId := tid |} ->
  let c' := Final.handleMouseLeave c in
  Final.squaresState c' !! i = Some {| state := fading; timeoutId := tid |} /\
  (forall t, tid = Some t -> pending (Final.host c') !! t = None) /\
  (forall t, ~ pendingFor (Final.host c') i t) /\
  forall es c'', Forall notPointer es ->
    Final.run width height horizontal vertical es c' = Some c'' ->
    Final.squaresState c'' !! i = Some {| state := fading; timeoutId := tid |}.
Proof.
  intros Hreach Hi c'.
  destruct (reachable_consistent _ _ _ _ _ Hreach) as [Hrec Hiss Hs _].
  assert (Final.squaresState c' !! i = Some {| state := fading; timeoutId := tid |} /\
          (forall t, tid = Some t -> pending (Final.host c') !! t = None) /\
          (forall t, ~ pendingFor (Final.host c') i t)) as (Hi' & Hgone & Hquiet).
  { subst c'. unfold Final.handleMouseLeave, Final.setSquaresState.
    destruct (leaveUpdater _ _) as [s' h'] eqn:Hrun. unfold leaveUpdater in Hrun. simpl.
    apply leave_loop in Hrun
      as (Hnow & Hnext & Hiss' & Hs' & Hframe & Hnone & Hfad & Hhl & Hpend & Hkeep);
      [|apply NoDup_objectKeys|done..].
    assert (i ∈ objectKeys (Final.squaresState c)) as Hkey
      by (apply elem_of_objectKeys; eauto).
    split; [by apply Hfad|]. split.
    - intros t ->. destruct (pending h' !! t) as [tm|] eqn:Hp; [exfalso|done].
      destruct (Hpend t tm Hp) as [(_ & _ & Hns)|(Hge & _)].
      + by eapply Hns.
      + pose proof (Hs i _ t Hi eq_refl). lia.
    - intros t (tm & Hp & Ht).
      destruct (Hpend t tm Hp) as [(_ & Hp0 & Hns)|(Hge & k & _ & -> & Hk)].
      + apply Hrec in Hp0. destruct (recorded_stored _ _ _ Hp0) as (sq & Hsq & Hsq').
        rewrite Ht in Hsq. by eapply Hns.
      + simpl in Ht. subst k. rewrite (Hfad i tid Hi) in Hk. injection Hk as ->.
        pose proof (Hs i _ t Hi eq_refl). lia. }
  split; [done|]. split; [done|]. split; [done|].
  intros es c'' Hes Hrun. rewrite <- Hi'. by eapply quiet_cell_run.
Qed.

Lemma leave_strands_fading_cell_witness :
  let c' := Final.handleMouseLeave cellOneFading in
  Final.squaresState cellOneFading !! 1
    = Some {| state := fading; timeoutId := Some 2%positive |} /\
  pending (Final.host cellOneFading) !! 2%positive
    = Some {| due := 900; callback := RemovalTimeout 1 |} /\
  Final.squaresState c' !! 1 = Some {| state := fading; timeoutId := Some 2%positive |} /\
  (forall t, Some 2%positive = Some t -> pending (Final.host c') !! t = None) /\
  (forall t, ~ pendingFor (Final.host c') 1 t) /\
  forall es c'', Forall notPointer es ->
    Final.run 10 10 2 1 es c' = Some c'' ->
    Final.squaresState c'' !! 1 = Some {| state := fading; timeoutId := Some 2%positive |}.
Proof.
  split; [reflexivity|]. split; [reflexivity|].
  apply (leave_strands_fading_cell 10 10 2 1 cellOneFading 1 (Some 2%positive)).
  - apply reachable_cellOneFading.
  - reflexivity.
Defined.

(** The same on the clock: cell 1 fades from time 400, the pointer leaves
    at time 450, and long after the removal was due (time 900) the entry is
    still there. *)
Example fading_cell_after_leave :
  Final.run 10 10 2 1
    (untilFading ++ [Final.Pointer Leave; Final.Render; Final.Elapse 100000]) Final.mount
  = Some {| Final.squaresState := {[ 1 := {| state := fading; timeoutId := Some 2%positive |} ]};
            Final.lastSquareRef := None;
            Final.rendered := {[ 1 := {| state := fading; timeoutId := Some 2%positive |} ]};
            Final.renderPending := false;
            Final.host := {| pending := ∅; nextId := 3%positive; now := 100000 |} |}.
Proof. vm_compute. reflexivity. Qed.

(** The lifecycle of one cell when nothing else happens (2 x 1 grid): the
    pointer enters cell 0 at time 0, cell 1 is highlighted; its dwell
    timer fires at time 400 and the cell fades; its removal timer fires at
    time 900 and the entry is deleted. *)
Example lifecycle_in_isolation :
  phaseOf (Final.squaresState (Final.handleMouseMove 10 10 2 1 5 5 firstRandom Final.mount)) 1
    = Some highlighted /\
  Final.run 10 10 2 1
    [Final.Pointer (Move 5 5 firstRandom); Final.Render; Final.Elapse 400;
     Final.Timeout 1%positive] Final.mount
  = Some {| Final.squaresState := {[ 1 := {| state := fading; timeoutId := Some 2%positive |} ]};
            Final.lastSquareRef := Some 0;
            Final.rendered :=
              {[ 1 := {| state := highlighted; timeoutId := Some 1%positive |} ]};
            Final.renderPending := true;
            Final.host :=
              {| pending := {[ 2%positive := {| due := 900; callback := RemovalTimeout 1 |} ]};
                 nextId := 3%positive; now := 400 |} |} /\
  Final.run 10 10 2 1
    [Final.Pointer (Move 5 5 firstRandom); Final.Render; Final.Elapse 400;
     Final.Timeout 1%positive; Final.Render; Final.Elapse 900; Final.Timeout 2%positive]
    Final.mount
  = Some {| Final.squaresState := ∅;
            Final.lastSquareRef := Some 0;
            Final.rendered := {[ 1 := {| state := fading; timeoutId := Some 2%positive |} ]};
            Final.renderPending := true;
            Final.host := {| pending := ∅; nextId := 3%positive; now := 900 |} |}.
Proof. vm_compute. repeat split. Qed.



(** A render that follows a state change clears every timer stored in the
    mapping of the render before it, also in entries that the state change
    left as they were. *)
Lemma render_clears_rendered_timers (c : Final.Component) (i : Z) (sq : SquareState)
    (t : TimeoutId) :
  Final.rendered c !! i = Some sq -> timeoutId sq = Some t ->
  pending (Final.host (Final.render c)) !! t = None /\
  Final.squaresState (Final.render c) = Final.squaresState c.
Proof.
  intros Hi Ht. unfold Final.render.
  pose proof (effectCleanup_spec (Final.rendered c) (Final.host c)) as (_ & _ & Hpend).
  destruct (effectCleanup _ _) as [[] h']. simpl in *. split; [|done].
  destruct (pending h' !! t) as [tm|] eqn:Hp; [exfalso|done].
  apply Hpend in Hp as [_ Hns]. by eapply Hns.
Qed.

(** C4: a highlighted cell that is not triggered again does not always
    fade. On the 4 x 1 grid cell 1 is highlighted at time 0, with a dwell
    timer due at time 400. The pointer then enters cell 3 at time 100,
    which selects cell 2 only. The render that follows runs the cleanup of
    the effect on the previous mapping and clears the dwell timer of cell
    1: from then on no timer acts on cell 1, and whatever timers fire and
    however long the clock runs, cell 1 stays highlighted. *)
Theorem cleanup_strands_highlighted_cell :
  (let c0 := Final.handleMouseMove 10 10 4 1 5 5 firstRandom Final.mount in
   Final.squaresState c0 !! 1
     = Some {| state := highlighted; timeoutId := Some 1%positive |} /\
   pending (Final.host c0) !! 1%positive
     = Some {| due := 400; callback := DwellTimeout 1 |}) /\
  Final.run 10 10 4 1 twoMoves Final.mount = Some afterTwoMoves /\
  Final.squaresState afterTwoMoves !! 1
    = Some {| state := highlighted; timeoutId := Some 1%positive |} /\
  pending (Final.host afterTwoMoves)
    = {[ 2%positive := {| due := 500; callback := DwellTimeout 2 |} ]} /\
  (forall es c, Forall notPointer es ->
     Final.run 10 10 4 1 es afterTwoMoves = Some c ->
     phaseOf (Final.squaresState c) 1 = Some highlighted) /\
  exists c, Final.run 10 10 4 1 (twoMoves ++ thenIdle) Final.mount = Some c /\
    now (Final.host c) = 100000 /\ pending (Final.host c) = ∅ /\
    phaseOf (Final.squaresState c) 1 = Some highlighted.
Proof.
  split; [vm_compute; by split|].
  split; [apply run_twoMoves|].
  split; [vm_compute; reflexivity|].
  split; [vm_compute; reflexivity|].
  split.
  - intros es c Hes Hrun. unfold phaseOf.
    rewrite (quiet_cell_run 10 10 4 1 es afterTwoMoves c 1 Hes Hrun); [reflexivity|].
    intros t (tm & Hp & Ht).
    assert (pending (Final.host afterTwoMoves)
              = {[ 2%positive := {| due := 500; callback := DwellTimeout 2 |} ]}) as Heq
      by (vm_compute; reflexivity).
    rewrite Heq in Hp. apply lookup_singleton_Some in Hp as [_ <-]. discriminate.
  - eexists. split; [vm_compute; reflexivity|]. by vm_compute.
Qed.



(** Whatever the state, the cleanup cancels the timers stored in the
    mapping of the last render. *)
Lemma unmount_clears_rendered (c : Final.Component) (i : Z) (sq : SquareState)
    (t : TimeoutId) :
  Final.rendered c !! i = Some sq -> timeoutId sq = Some t ->
  pending (Final.unmount c) !! t = None.
Proof.
  intros Hi Ht. unfold Final.unmount.
  pose proof (effectCleanup_spec (Final.rendered c) (Final.host c)) as (_ & _ & Hpend).
  destruct (pending (snd _) !! t) as [tm|] eqn:Hp; [exfalso|done].
  apply Hpend in Hp as [_ Hns]. by eapply Hns.
Qed.

(** ** The breakpoint signal *)

(** C9, for the responsive variant: once the hook has seen a window
    narrower than 1024 pixels, neither handler is attached, and a pointer
    event leaves the whole component state (mapping, last-hovered
    reference, timers) as it is. *)
Theorem narrow_viewport_detaches_handlers (width height : Q) (horizontal vertical : Z)
    (innerWidth : Z) (c : Responsive.Component) (ev : PointerEvent) :
  innerWidth < UseIsMobile.defaultMaxWidth ->
  let c' := Responsive.viewportChecked innerWidth c in
  Responsive.isMobile c' = true /\
  onMouseMove (Responsive.svgProps width height horizontal vertical c') = None /\
  onMouseLeave (Responsive.svgProps width height horizontal vertical c') = None /\
  dispatch (Responsive.svgProps width height horizontal vertical c') ev c' = c'.
Proof.
  intros Hnarrow c'.
  assert (Responsive.isMobile c' = true) as Hmobile.
  { subst c'. simpl. unfold UseIsMobile.checkIsMobile. by apply bool_decide_eq_true. }
  split; [done|]. unfold Responsive.svgProps, dispatch. rewrite Hmobile. simpl.
  by destruct ev.
Qed.

Lemma narrow_viewport_detaches_handlers_witness :
  let c' := Responsive.viewportChecked 500 Responsive.mount in
  Responsive.isMobile c' = true /\
  onMouseMove (Responsive.svgProps 10 10 2 1 c') = None /\
  onMouseLeave (Responsive.svgProps 10 10 2 1 c') = None /\
  dispatch (Responsive.svgProps 10 10 2 1 c') (Move 5 5 firstRandom) c' = c'.
Proof.
  apply (narrow_viewport_detaches_handlers 10 10 2 1 500 Responsive.mount
           (Move 5 5 firstRandom)).
  reflexivity.
Defined.

(** In the responsive variant a wide window leaves the handlers attached:
    the same pointer move highlights cell 1. *)
Example wide_viewport_keeps_handlers :
  let c' := Responsive.viewportChecked 1280 Responsive.mount in
  Responsive.squaresState
    (dispatch (Responsive.svgProps 10 10 2 1 c') (Move 5 5 firstRandom) c')
  = {[ 1 := {| state := highlighted; timeoutId := Some 1%positive |} ]}.
Proof. vm_compute. reflexivity. Qed.

(** C9 fails for the final variant: it does not consult the signal. With
    a window 500 pixels wide the signal is [true], yet both handlers are
    attached and a pointer move changes the mapping and the reference. *)
Lemma final_ignores_breakpoint :
  UseIsMobile.checkIsMobile UseIsMobile.defaultMaxWidth 500 = true /\
  onMouseMove (Final.svgProps 10 10 2 1) <> None /\
  onMouseLeave (Final.svgProps 10 10 2 1) <> None /\
  Final.squaresState (dispatch (Final.svgProps 10 10 2 1) (Move 5 5 firstRandom) Final.mount)
    = {[ 1 := {| state := highlighted; timeoutId := Some 1%positive |} ]} /\
  Final.squaresState (dispatch (Final.svgProps 10 10 2 1) (Move 5 5 firstRandom) Final.mount)
    <> Final.squaresState Final.mount /\
  Final.lastSquareRef (dispatch (Final.svgProps 10 10 2 1) (Move 5 5 firstRandom) Final.mount)
    <> Final.lastSquareRef Final.mount.
Proof.
  split; [reflexivity|]. split; [discriminate|]. split; [discriminate|].
  split; [vm_compute; reflexivity|]. split; [|discriminate].
  intros Heq. apply (f_equal (fun s => s !! 1)) in Heq. vm_compute in Heq. discriminate.
Qed.

(** ** Stale timer callbacks *)

(** C10: a dwell callback changes the mapping (and sets a timer) only if
    its cell is still highlighted, and then the cell fades and its entry
    stores the new removal timer, due in 500 time units; a removal
    callback changes the mapping only if its cell is still fading, and
    then the entry is deleted. Otherwise mapping and timers are returned
    as they were. *)
Theorem stale_callbacks_are_noops (index : Z) (current : gmap Z SquareState) (h : Host) :
  (phaseOf current index <> Some highlighted ->
     dwellUpdater index current h = (current, h)) /\
  (phaseOf current index <> Some fading ->
     removalUpdater index current h = (current, h)) /\
  (phaseOf current index = Some highlighted ->
     dwellUpdater index current h =
       (<[index := {| state := fading; timeoutId := Some (nextId h) |}]> current,
        {| pending := <[nextId h := {| due := now h + 500;
                                       callback := RemovalTimeout index |}]> (pending h);
           nextId := Pos.succ (nextId h);
           now := now h |})) /\
  (phaseOf current index = Some fading ->
     removalUpdater index current h = (delete index current, h)).
Proof.
  unfold phaseOf. repeat split.
  - intros Hph. apply dwellUpdater_stale. intros tid Hi. rewrite Hi in Hph. by apply Hph.
  - intros Hph. apply removalUpdater_stale. intros tid Hi. rewrite Hi in Hph. by apply Hph.
  - destruct (current !! index) as [[[|] tid]|] eqn:Hi; simpl; try done.
    intros _. by eapply dwellUpdater_eq.
  - destruct (current !! index) as [[[|] tid]|] eqn:Hi; simpl; try done.
    intros _. by eapply removalUpdater_eq.
Qed.

(** Both kinds of stale callback on one mapping: cell 1 is fading and
    cell 2 is absent. *)
Example stale_callbacks_example :
  let current : gmap Z SquareState := {[ 1 := {| state := fading; timeoutId := None |} ]} in
  let h := {| pending := ∅; nextId := 5%positive; now := 0 |} in
  dwellUpdater 1 current h = (current, h) /\
  dwellUpdater 2 current h = (current, h) /\
  removalUpdater 2 current h = (current, h) /\
  removalUpdater 1 current h = (∅, h).
Proof. vm_compute. repeat split. Qed.

(** * Further properties *)

(** ** Neighbour selection *)

Section NeighborFacts.

Variables (width height : Q) (horizontal vertical : Z).

Lemma length_neighborAt (row col i j : Z) :
  (length (neighborAt horizontal vertical row col i j) <= 1)%nat /\
  (length (neighborAt horizontal vertical row col i j) = 1%nat <->
   (i <> 0 \/ j <> 0) /\ 0 <= row + i < vertical /\ 0 <= col + j < horizontal).
Proof.
  unfold neighborAt.
  destruct ((i =? 0) && (j =? 0)) eqn:Hij; simpl.
  - split; [lia|]. split; [discriminate|lia].
  - destruct ((0 <=? row + i) && (row + i <? vertical) && (0 <=? col + j)
              && (col + j <? horizontal)) eqn:Hin; simpl.
    + split; [lia|]. split; [lia|reflexivity].
    + split; [lia|]. split; [discriminate|lia].
Qed.

Lemma getNeighbors_unfold (x y : Q) :
  let row := Qfloor (y / height) in
  let col := Qfloor (x / width) in
  let at_ := neighborAt horizontal vertical row col in
  getNeighbors width height horizontal vertical x y =
    at_ (-1) (-1) ++ at_ (-1) 0 ++ at_ (-1) 1 ++
    at_ 0 (-1) ++ at_ 0 1 ++
    at_ 1 (-1) ++ at_ 1 0 ++ at_ 1 1.
Proof.
  intros row col at_. unfold getNeighbors. fold row col. simpl.
  change (neighborAt horizontal vertical row col) with at_.
  rewrite !app_nil_r. by rewrite <- !app_assoc.
Qed.

End NeighborFacts.

(** X1: wherever the pointer is, also outside the grid, [getNeighbors]
    returns at most eight indices, all of them cells of the grid, none
    twice. *)
Theorem getNeighbors_any_pointer (width height : Q) (horizontal vertical : Z) (x y : Q) :
  (length (getNeighbors width height horizontal vertical x y) <= 8)%nat /\
  NoDup (getNeighbors width height horizontal vertical x y) /\
  forall n, n ∈ getNeighbors width height horizontal vertical x y ->
    0 <= n < horizontal * vertical.
Proof.
  split; [|split; [apply NoDup_getNeighbors|apply getNeighbors_in_grid]].
  rewrite getNeighbors_unfold. rewrite !length_app.
  set (row := Qfloor (y / height)). set (col := Qfloor (x / width)).
  pose proof (length_neighborAt horizontal vertical row col (-1) (-1)) as [? _].
  pose proof (length_neighborAt horizontal vertical row col (-1) 0) as [? _].
  pose proof (length_neighborAt horizontal vertical row col (-1) 1) as [? _].
  pose proof (length_neighborAt horizontal vertical row col 0 (-1)) as [? _].
  pose proof (length_neighborAt horizontal vertical row col 0 1) as [? _].
  pose proof (length_neighborAt horizontal vertical row col 1 (-1)) as [? _].
  pose proof (length_neighborAt horizontal vertical row col 1 0) as [? _].
  pose proof (length_neighborAt horizontal vertical row col 1 1) as [? _].
  lia.
Qed.

(** X2: [getNeighbors] returns eight indices exactly when the pointer's
    cell is an interior cell of the grid: at least one row and one column
    away from every border. *)
Theorem getNeighbors_eight_iff_interior (width height : Q) (horizontal vertical : Z)
    (x y : Q) :
  let row := Qfloor (y / height) in
  let col := Qfloor (x / width) in
  length (getNeighbors width height horizontal vertical x y) = 8%nat <->
  1 <= row < vertical - 1 /\ 1 <= col < horizontal - 1.
Proof.
  intros row col. rewrite getNeighbors_unfold. fold row col. rewrite !length_app.
  pose proof (length_neighborAt horizontal vertical row col (-1) (-1)) as [L1 E1].
  pose proof (length_neighborAt horizontal vertical row col (-1) 0) as [L2 E2].
  pose proof (length_neighborAt horizontal vertical row col (-1) 1) as [L3 E3].
  pose proof (length_neighborAt horizontal vertical row col 0 (-1)) as [L4 E4].
  pose proof (length_neighborAt horizontal vertical row col 0 1) as [L5 E5].
  pose proof (length_neighborAt horizontal vertical row col 1 (-1)) as [L6 E6].
  pose proof (length_neighborAt horizontal vertical row col 1 0) as [L7 E7].
  pose proof (length_neighborAt horizontal vertical row col 1 1) as [L8 E8].
  split.
  - intros Hsum.
    assert (length (neighborAt horizontal vertical row col (-1) (-1)) = 1%nat) as H1
      by (clear E1 E2 E3 E4 E5 E6 E7 E8; lia).
    assert (length (neighborAt horizontal vertical row col 1 1) = 1%nat) as H8
      by (clear E1 E2 E3 E4 E5 E6 E7 E8; lia).
    apply E1 in H1. apply E8 in H8. clear E1 E2 E3 E4 E5 E6 E7 E8. lia.
  - intros Hin.
    assert (length (neighborAt horizontal vertical row col (-1) (-1)) = 1%nat) as H1
      by (apply E1; lia).
    assert (length (neighborAt horizontal vertical row col (-1) 0) = 1%nat) as H2
      by (apply E2; lia).
    assert (length (neighborAt horizontal vertical row col (-1) 1) = 1%nat) as H3
      by (apply E3; lia).
    assert (length (neighborAt horizontal vertical row col 0 (-1)) = 1%nat) as H4
      by (apply E4; lia).
    assert (length (neighborAt horizontal vertical row col 0 1) = 1%nat) as H5
      by (apply E5; lia).
    assert (length (neighborAt horizontal vertical row col 1 (-1)) = 1%nat) as H6
      by (apply E6; lia).
    assert (length (neighborAt horizontal vertical row col 1 0) = 1%nat) as H7
      by (apply E7; lia).
    assert (length (neighborAt horizontal vertical row col 1 1) = 1%nat) as H8
      by (apply E8; lia).
    rewrite H1, H2, H3, H4, H5, H6, H7, H8. reflexivity.
Qed.




(** ** Rendering *)





(** ** The final variant: what the handlers touch *)

Lemma callbackUpdater_no_new_entry (cb : Callback) (s s' : gmap Z SquareState) (h h' : Host)
    (i : Z) :
  callbackUpdater cb s h = (s', h') -> s !! i = None -> s' !! i = None.
Proof.
  intros Hrun Hi. destruct (decide (i = target cb)) as [->|Hne].
  - destruct cb as [index|index|index]; simpl in *.
    + rewrite dwellUpdater_stale in Hrun by (intros ?; congruence). by injection Hrun as <- _.
    + rewrite removalUpdater_stale in Hrun by (intros ?; congruence).
      by injection Hrun as <- _.
    + unfold fadeUpdater in Hrun. rewrite Hi in Hrun. by injection Hrun as <- _.
  - apply callbackUpdater_frame in Hrun as [Hframe _]. by rewrite Hframe.
Qed.

Section FinalEntries.

Variables (width height : Q) (horizontal vertical : Z).

Lemma randomNeighbors_in_grid (x y : Q) (rng : Random) (k i : Z) :
  validRandom rng ->
  i ∈ slice0 k (sortRandom rng (getNeighbors width height horizontal vertical x y)) ->
  i ∈ getNeighbors width height horizontal vertical x y.
Proof.
  intros [Hperm _] Hi. apply subseteq_take in Hi. by rewrite Hperm in Hi.
Qed.

Lemma reachable_entries (c : Final.Component) :
  Final.reachable width height horizontal vertical c ->
  forall i sq, Final.squaresState c !! i = Some sq ->
    0 <= i < horizontal * vertical /\ is_Some (timeoutId sq).
Proof.
  induction 1 as [|e c c' Hreach IH Hvalid Hstep]; [intros i sq Hi; by simpl in Hi|].
  pose proof (reachable_consistent _ _ _ _ _ Hreach) as [Hrec Hiss Hs _].
  destruct e as [[x y rng|]|t|t|]; simpl in Hstep.
  - injection Hstep as <-. unfold Final.handleMouseMove.
    case_decide; [done|]. unfold Final.setSquaresState. simpl.
    destruct (highlightUpdater _ _ _ _ _) as [s' h'] eqn:Hrun. simpl.
    apply highlightUpdater_spec in Hrun
      as (_ & _ & _ & _ & Hout & Hin & _ & _);
      [|by apply NoDup_randomNeighbors|done..].
    intros i sq Hi.
    destruct (decide (i ∈ slice0 (Qfloor (random rng * 2) + 4)
                (sortRandom rng (getNeighbors width height horizontal vertical x y))))
      as [Hsel|Hsel].
    + destruct (Hin i Hsel) as (t & Hsi & _). rewrite Hsi in Hi. injection Hi as <-.
      split; [|by eexists]. eapply getNeighbors_in_grid, randomNeighbors_in_grid; done.
    + rewrite Hout in Hi by done. by eapply IH.
  - injection Hstep as <-. unfold Final.handleMouseLeave, Final.setSquaresState.
    destruct (leaveUpdater _ _) as [s' h'] eqn:Hrun. unfold leaveUpdater in Hrun. simpl.
    apply leave_loop in Hrun
      as (_ & _ & _ & _ & _ & Hnone & Hfad & Hhl & _ & _);
      [|apply NoDup_objectKeys|done..].
    intros i sq Hi.
    destruct (Final.squaresState c !! i) as [[[|] tid]|] eqn:Hci.
    + destruct (Hhl i tid) as (r & Hr & _); [apply elem_of_objectKeys; eauto|done|].
      rewrite Hr in Hi. injection Hi as <-. split; [by eapply IH|by eexists].
    + rewrite (Hfad i tid Hci) in Hi. injection Hi as <-. by eapply IH.
    + rewrite (Hnone i Hci) in Hi. done.
  - destruct (pending (Final.host c) !! t) as [tm|] eqn:Hp; [|done].
    case_decide; [|done]. injection Hstep as <-.
    pose proof (Hrec t tm Hp) as Ht. unfold recorded in Ht.
    unfold Final.timerFires, Final.setSquaresState. simpl.
    destruct (callback tm) as [index|index|index]; simpl; [| |done].
    + rewrite (dwellUpdater_eq _ _ _ _ Ht). simpl. intros i sq Hi.
      destruct (decide (i = index)) as [->|Hne].
      * rewrite lookup_insert_eq in Hi. injection Hi as <-.
        split; [by eapply IH|by eexists].
      * rewrite lookup_insert_ne in Hi by done. by eapply IH.
    + rewrite (removalUpdater_eq _ _ _ _ Ht). simpl. intros i sq Hi.
      apply lookup_delete_Some in Hi as [_ Hi]. by eapply IH.
  - case_decide; [|done]. by injection Hstep as <-.
  - destruct (Final.renderPending c); [|done]. injection Hstep as <-.
    unfold Final.render. destruct (effectCleanup _ _). simpl. exact IH.
Qed.

End FinalEntries.

(** X5: in every reachable state of the final variant, each entry of the
    mapping belongs to a cell of the grid and stores a timer identifier;
    so each entry is drawn: the view has a rectangle with that key, with
    the stroke of the entry's phase. *)
Theorem every_entry_is_drawn (width height : Q) (horizontal vertical : Z)
    (squaresClassName : option string) (c : Final.Component) (i : Z) (sq : SquareState) :
  Final.reachable width height horizontal vertical c ->
  Final.squaresState c !! i = Some sq ->
  0 <= i < horizontal * vertical /\
  is_Some (timeoutId sq) /\
  exists r,
    r ∈ FinalView.rects width height horizontal vertical squaresClassName
          (Final.squaresState c) /\
    rectKey r = i /\ rectStroke r = FinalView.stroke (Some sq).
Proof.
  intros Hreach Hi.
  destruct (reachable_entries _ _ _ _ c Hreach i sq Hi) as [Hgrid Hid].
  split; [done|]. split; [done|].
  exists (FinalView.rect width height horizontal squaresClassName (Final.squaresState c) i).
  split; [|split; [done|simpl; by rewrite Hi]].
  unfold FinalView.rects, cellIndices. apply list_elem_of_fmap.
  exists i. split; [done|]. apply elem_of_seqZ. lia.
Qed.

Lemma every_entry_is_drawn_witness :
  Final.squaresState afterTwoMoves !! 2
    = Some {| state := highlighted; timeoutId := Some 2%positive |} /\
  0 <= 2 < 4 * 1 /\
  is_Some (Some 2%positive) /\
  exists r,
    r ∈ FinalView.rects 10 10 4 1 None (Final.squaresState afterTwoMoves) /\
    rectKey r = 2 /\
    rectStroke r
      = FinalView.stroke (Some {| state := highlighted; timeoutId := Some 2%positive |}).
Proof.
  split; [reflexivity|].
  apply (every_entry_is_drawn 10 10 4 1 None afterTwoMoves 2
           {| state := highlighted; timeoutId := Some 2%positive |}).
  - apply reachable_afterTwoMoves.
  - reflexivity.
Defined.




(** ** The final variant: pointer-leave *)




(** X8: a pointer-leave resets the suppression of redundant moves. The
    next move is processed whatever cell it is in, also the cell the
    pointer was in before it left: the reference is set and every selected
    neighbour is highlighted. *)
Theorem move_after_leave_is_processed (width height : Q) (horizontal vertical : Z)
    (x y : Q) (rng : Random) (c : Final.Component) (index : Z) :
  validRandom rng ->
  Final.reachable width height horizontal vertical c ->
  index ∈ slice0 (Qfloor (random rng * 2) + 4)
            (sortRandom rng (getNeighbors width height horizontal vertical x y)) ->
  let c' := Final.handleMouseMove width height horizontal vertical x y rng
              (Final.handleMouseLeave c) in
  Final.lastSquareRef c' = Some (cellIndex width height horizontal x y) /\
  phaseOf (Final.squaresState c') index = Some highlighted.
Proof.
  intros Hrng Hreach Hsel c'.
  pose proof (consistent_handleMouseLeave c (reachable_consistent _ _ _ _ _ Hreach)) as Hc1.
  assert (Final.lastSquareRef (Final.handleMouseLeave c) = None) as Hlast.
  { unfold Final.handleMouseLeave, Final.setSquaresState. by destruct (leaveUpdater _ _). }
  subst c'. revert Hc1 Hlast. generalize (Final.handleMouseLeave c).
  intros c1 [Hrec Hiss Hs _] Hlast.
  unfold Final.handleMouseMove. rewrite Hlast. rewrite decide_False by done.
  unfold Final.setSquaresState. simpl.
  destruct (highlightUpdater _ _ _ _ _) as [s' h'] eqn:Hrun. simpl.
  apply highlightUpdater_spec in Hrun
    as (_ & _ & _ & _ & _ & Hin & _ & _);
    [|by apply NoDup_randomNeighbors|done..].
  split; [done|]. destruct (Hin index Hsel) as (t & Hsi & _).
  unfold phaseOf. by rewrite Hsi.
Qed.

Lemma move_after_leave_is_processed_witness :
  Final.lastSquareRef cellOneHighlighted = Some (cellIndex 10 10 3 5 5) /\
  1 ∈ slice0 (Qfloor (random firstRandom * 2) + 4)
        (sortRandom firstRandom (getNeighbors 10 10 3 1 5 5)) /\
  let c' := Final.handleMouseMove 10 10 3 1 5 5 firstRandom
              (Final.handleMouseLeave cellOneHighlighted) in
  Final.lastSquareRef c' = Some (cellIndex 10 10 3 5 5) /\
  phaseOf (Final.squaresState c') 1 = Some highlighted.
Proof.
  split; [reflexivity|].
  assert (1 ∈ slice0 (Qfloor (random firstRandom * 2) + 4)
                (sortRandom firstRandom (getNeighbors 10 10 3 1 5 5))) as Hsel
    by (vm_compute; left).
  split; [exact Hsel|].
  apply (move_after_leave_is_processed 10 10 3 1 5 5 firstRandom cellOneHighlighted 1).
  - apply validRandom_firstRandom.
  - apply reachable_cellOneHighlighted.
  - exact Hsel.
Defined.



(** ** The final variant: the effect and the timers *)


(** On the 4 x 1 grid: the render after the second move clears timer 1 of
    cell 1, which the move did not touch, and keeps the new timer 2. *)
Example render_clears_untouched_timer :
  Final.rendered beforeSecondRender
    = {[ 1 := {| state := highlighted; timeoutId := Some 1%positive |} ]} /\
  pending (Final.host beforeSecondRender)
    = {[ 1%positive := {| due := 400; callback := DwellTimeout 1 |};
         2%positive := {| due := 500; callback := DwellTimeout 2 |} ]} /\
  pending (Final.host (Final.render beforeSecondRender))
    = {[ 2%positive := {| due := 500; callback := DwellTimeout 2 |} ]}.
Proof. vm_compute. repeat split. Qed.






(** ** The hook [useIsMobile] *)

Lemma remove_only_listener (l : IsMobileHook.Listener) :
  filter (fun l' => l' <> l) [l] = [].
Proof. rewrite filter_cons. by rewrite decide_False by (intros Hne; by apply Hne). Qed.

Lemma hookSettled_runEffect (maxWidth : Z) (h : IsMobileHook.Hook) :
  IsMobileHook.resizeListeners (IsMobileHook.window h) = [] ->
  hookSettled (IsMobileHook.runEffect maxWidth h) /\
  IsMobileHook.installed (IsMobileHook.runEffect maxWidth h)
    = Some {| IsMobileHook.closureId := IsMobileHook.nextClosure h;
              IsMobileHook.capturedMaxWidth := maxWidth |} /\
  IsMobileHook.innerWidth (IsMobileHook.window (IsMobileHook.runEffect maxWidth h))
    = IsMobileHook.innerWidth (IsMobileHook.window h).
Proof.
  intros Hempty. unfold IsMobileHook.runEffect, IsMobileHook.addEventListener. simpl.
  rewrite Hempty. simpl. split; [|done]. split; simpl.
  - eexists. split; [done|]. split; [done|]. simpl. lia.
  - intros l [= <-]. done.
Qed.

Lemma hookSettled_handle (e : IsMobileHook.Event) (h : IsMobileHook.Hook) :
  hookSettled h -> hookSettled (IsMobileHook.handle e h).
Proof.
  intros [(l & Hl & Hls & Hid) Hstate]. destruct e as [width|maxWidth]; simpl.
  - unfold IsMobileHook.resize. simpl. rewrite Hls. simpl. split; simpl.
    + exists l. done.
    + intros l' Hl'. rewrite Hl in Hl'. by injection Hl' as <-.
  - unfold IsMobileHook.rerender. rewrite Hl. case_decide; [by split; [exists l|]|].
    apply hookSettled_runEffect. unfold IsMobileHook.cleanup. rewrite Hl. simpl.
    rewrite Hls. apply remove_only_listener.
Qed.

Lemma hookSettled_run (es : list IsMobileHook.Event) (h : IsMobileHook.Hook) :
  hookSettled h -> hookSettled (IsMobileHook.run es h).
Proof.
  revert h. induction es as [|e es IH]; intros h Hh; [done|].
  apply IH. by apply hookSettled_handle.
Qed.

Lemma hook_run_widths (es : list IsMobileHook.Event) (h : IsMobileHook.Hook) (l : IsMobileHook.Listener) :
  hookSettled h -> IsMobileHook.installed h = Some l ->
  exists l', IsMobileHook.installed (IsMobileHook.run es h) = Some l' /\
    IsMobileHook.capturedMaxWidth l' = lastMaxWidth (IsMobileHook.capturedMaxWidth l) es /\
    IsMobileHook.innerWidth (IsMobileHook.window (IsMobileHook.run es h))
      = lastInnerWidth (IsMobileHook.innerWidth (IsMobileHook.window h)) es.
Proof.
  revert h l. induction es as [|e es IH]; intros h l Hh Hl; [by exists l|].
  pose proof (hookSettled_handle e h Hh) as Hh'.
  destruct Hh as [(l0 & Hl0 & Hls & Hid) Hstate].
  rewrite Hl in Hl0. injection Hl0 as <-.
  unfold IsMobileHook.run, lastMaxWidth, lastInnerWidth. simpl.
  fold (IsMobileHook.run es (IsMobileHook.handle e h)).
  destruct e as [width|maxWidth]; simpl in *.
  - assert (IsMobileHook.installed (IsMobileHook.resize width h) = Some l /\
            IsMobileHook.innerWidth (IsMobileHook.window (IsMobileHook.resize width h))
              = width) as [Hl' Hw'].
    { unfold IsMobileHook.resize. simpl. rewrite Hls. simpl. done. }
    destruct (IH _ l Hh' Hl') as (l' & ? & ? & ?). rewrite Hw' in *. by exists l'.
  - unfold IsMobileHook.rerender in *. rewrite Hl in *.
    destruct (decide (IsMobileHook.capturedMaxWidth l = maxWidth)) as [<-|Hne].
    + destruct (IH _ l Hh' Hl) as (l' & ? & ? & ?). by exists l'.
    + assert (IsMobileHook.resizeListeners (IsMobileHook.window (IsMobileHook.cleanup h))
                = []) as Hempty.
      { unfold IsMobileHook.cleanup. rewrite Hl. simpl. rewrite Hls.
        apply remove_only_listener. }
      destruct (hookSettled_runEffect maxWidth _ Hempty) as (_ & Hinst & Hw).
      destruct (IH _ _ Hh' Hinst) as (l' & ? & ? & Hw').
      exists l'. split; [done|]. split; [done|]. rewrite Hw', Hw.
      unfold IsMobileHook.cleanup. by rewrite Hl.
Qed.

(** X13: the hook follows the window. On the first render it reports
    [false] whatever the width. From the moment its effect has run, and
    after any sequence of resizes and of renders with a changed
    [maxWidth], exactly one [resize] listener is registered, and the
    reported value tells whether the current [innerWidth] is below the
    [maxWidth] of the last render. Unmounting removes the listener. *)
Theorem hook_tracks_window (maxWidth : Z) (w : IsMobileHook.Window)
    (es : list IsMobileHook.Event) :
  IsMobileHook.resizeListeners w = [] ->
  let h := IsMobileHook.run es (IsMobileHook.mount maxWidth w) in
  IsMobileHook.isMobile (IsMobileHook.firstRender w) = false /\
  IsMobileHook.isMobile h
    = bool_decide (lastInnerWidth (IsMobileHook.innerWidth w) es < lastMaxWidth maxWidth es) /\
  length (IsMobileHook.resizeListeners (IsMobileHook.window h)) = 1%nat /\
  IsMobileHook.resizeListeners (IsMobileHook.window (IsMobileHook.unmount h)) = [].
Proof.
  intros Hempty h. split; [done|].
  destruct (hookSettled_runEffect maxWidth (IsMobileHook.firstRender w) Hempty)
    as (Hmount & Hinst & Hw).
  fold (IsMobileHook.mount maxWidth w) in Hmount, Hinst, Hw.
  destruct (hook_run_widths es _ _ Hmount Hinst) as (l' & Hl' & Hmax & Hwidth).
  rewrite Hw in Hwidth.
  change (IsMobileHook.innerWidth (IsMobileHook.window (IsMobileHook.firstRender w)))
    with (IsMobileHook.innerWidth w) in Hwidth.
  cbn [IsMobileHook.capturedMaxWidth] in Hmax.
  assert (hookSettled h) as [(l & Hl & Hls & _) Hstate]
    by by apply hookSettled_run.
  fold h in Hl', Hwidth. rewrite Hl in Hl'. injection Hl' as <-.
  split; [|split].
  - rewrite (Hstate l Hl), Hwidth, Hmax. done.
  - by rewrite Hls.
  - unfold IsMobileHook.unmount, IsMobileHook.cleanup. rewrite Hl. simpl. rewrite Hls.
    apply remove_only_listener.
Qed.

Lemma hook_tracks_window_witness :
  let w := {| IsMobileHook.innerWidth := 1280; IsMobileHook.resizeListeners := [] |} in
  let es := [IsMobileHook.Resize 800; IsMobileHook.Rerender 768; IsMobileHook.Resize 700] in
  let h := IsMobileHook.run es (IsMobileHook.mount 1024 w) in
  IsMobileHook.isMobile (IsMobileHook.run [IsMobileHook.Resize 800; IsMobileHook.Rerender 768]
                           (IsMobileHook.mount 1024 w)) = false /\
  IsMobileHook.isMobile (IsMobileHook.firstRender w) = false /\
  IsMobileHook.isMobile h = bool_decide (lastInnerWidth 1280 es < lastMaxWidth 1024 es) /\
  length (IsMobileHook.resizeListeners (IsMobileHook.window h)) = 1%nat /\
  IsMobileHook.resizeListeners (IsMobileHook.window (IsMobileHook.unmount h)) = [].
Proof.
  split; [reflexivity|].
  apply (hook_tracks_window 1024
           {| IsMobileHook.innerWidth := 1280; IsMobileHook.resizeListeners := [] |}
           [IsMobileHook.Resize 800; IsMobileHook.Rerender 768; IsMobileHook.Resize 700]).
  reflexivity.
Defined.

(** ** The responsive variant *)

Lemma fadeSquareSimple_eq (m : gmap Z SquareState) (k : Z) (sq : SquareState) (h : Host) :
  m !! k = Some sq ->
  fadeSquareSimple m k h =
    (match state sq with
     | highlighted => <[k := {| state := fading; timeoutId := None |}]> m
     | fading => m
     end,
     {| pending := cleared (Some sq) (pending h); nextId := nextId h; now := now h |}).
Proof.
  intros Hk. unfold fadeSquareSimple, bind. rewrite Hk, clearIfSet_eq.
  by destruct (state sq).
Qed.

Lemma leaveSimple_loop (l : list Z) :
  NoDup l ->
  forall m h m' h',
  forOf fadeSquareSimple m l h = (m', h') ->
  now h' = now h /\ nextId h' = nextId h /\
  (forall k, k ∉ l -> m' !! k = m !! k) /\
  (forall k, m !! k = None -> m' !! k = None) /\
  (forall k tid, m !! k = Some {| state := fading; timeoutId := tid |} ->
      m' !! k = Some {| state := fading; timeoutId := tid |}) /\
  (forall k tid, k ∈ l -> m !! k = Some {| state := highlighted; timeoutId := tid |} ->
      m' !! k = Some {| state := fading; timeoutId := None |}) /\
  (forall t tm, pending h' !! t = Some tm <->
      pending h !! t = Some tm /\ notStoredAt m l t).
Proof.
  induction 1 as [|a l Ha Hl IH]; intros m h m' h' Hrun; cbn [forOf] in Hrun.
  - unfold ret in Hrun. injection Hrun as <- <-. repeat split; try done.
    + intros k tid Hk. by apply not_elem_of_nil in Hk.
    + apply notStoredAt_nil.
    + tauto.
  - unfold bind in Hrun. destruct (m !! a) as [sq|] eqn:Hma.
    2:{ unfold fadeSquareSimple at 1 in Hrun. rewrite Hma in Hrun. unfold ret in Hrun.
      apply IH in Hrun as (Hnow & Hnext & Hframe & Hnone & Hfad & Hhl & Hpend).
      split; [done|]. split; [done|]. split; [|split; [done|split; [done|split]]].
      - intros k Hk. apply not_elem_of_cons in Hk as [_ Hk]. by apply Hframe.
      - intros k tid [->|Hk]%elem_of_cons Hmk; [congruence|by eapply Hhl].
      - intros t tm. rewrite Hpend, notStoredAt_cons. split; [|tauto].
        intros [Hp Hns]. split; [done|]. split; [|done]. intros sq. congruence. }
    rewrite (fadeSquareSimple_eq m a sq h Hma) in Hrun.
    set (m1 := match state sq with
               | highlighted => <[a := {| state := fading; timeoutId := None |}]> m
               | fading => m
               end) in *.
    assert (forall i, i <> a -> m1 !! i = m !! i) as Hag.
    { intros i Hi. unfold m1. destruct (state sq); [by apply lookup_insert_ne|done]. }
    apply IH in Hrun as (Hnow & Hnext & Hframe & Hnone & Hfad & Hhl & Hpend); simpl in *.
    split; [done|]. split; [done|]. split; [|split; [|split; [|split]]].
    + intros k Hk. apply not_elem_of_cons in Hk as [Hka Hkl].
      rewrite Hframe by done. by apply Hag.
    + intros k Hk. apply Hnone. rewrite Hag; [done|congruence].
    + intros k tid Hk. apply Hfad. destruct (decide (k = a)) as [->|Hne].
      * unfold m1. rewrite Hma in Hk. injection Hk as ->. done.
      * by rewrite Hag.
    + intros k tid [->|Hk]%elem_of_cons Hmk.
      * rewrite Hframe by done. unfold m1. rewrite Hma in Hmk. injection Hmk as ->.
        simpl. apply lookup_insert_eq.
      * eapply Hhl; [done|]. rewrite Hag; [done|]. by intros ->.
    + intros t tm. rewrite Hpend, cleared_lookup_Some, notStoredAt_cons.
      rewrite (notStoredAt_agree m m1) by (intros i Hi; apply Hag; by intros ->).
      split.
      * intros [[Hp Hsq] Hns]. split; [done|]. split; [|done].
        intros sq' Hsq'. apply Hsq. congruence.
      * intros [Hp [Hsq Hns]]. split; [split; [done|]|done].
        intros sq' [= <-]. by apply Hsq.
Qed.

Lemma recordedFade_unique (s : gmap Z SquareState) (t1 t2 : TimeoutId) (tm1 tm2 : Timer) :
  recordedFade s t1 tm1 -> recordedFade s t2 tm2 ->
  target (callback tm1) = target (callback tm2) -> t1 = t2.
Proof.
  unfold recordedFade.
  destruct (callback tm1), (callback tm2); simpl; intros H1 H2 <-;
    try contradiction; congruence.
Qed.

Lemma consistentResponsive_mount : consistentResponsive Responsive.mount.
Proof. by split. Qed.

Section ResponsiveInvariant.

Variables (width height : Q) (horizontal vertical : Z).

Lemma consistentResponsive_move (x y : Q) (rng : Random) (c : Responsive.Component) :
  validRandom rng -> consistentResponsive c ->
  consistentResponsive (Responsive.handleMouseMove width height horizontal vertical x y rng c).
Proof.
  intros Hrng [Hrec Hiss Hs Hplain]. unfold Responsive.handleMouseMove.
  case_decide; [by split|]. unfold Responsive.setSquaresState. simpl.
  destruct (highlightUpdater _ _ _ _ _) as [s' h'] eqn:Hrun.
  apply highlightUpdater_spec in Hrun
    as (Hnow & Hnext & Hiss' & Hs' & Hout & Hin & Hpend & Hkeep);
    [|by apply NoDup_randomNeighbors|done..].
  split; simpl; [|done|done|].
  - intros t tm Hp.
    destruct (Hpend t tm Hp) as [(Hlt & Hp0 & Hns)|(Hge & i & Hi & -> & Hsi)]; [|exact Hsi].
    pose proof (Hrec t tm Hp0) as Hr. unfold recordedFade in *.
    destruct (callback tm) as [index|index|index]; [done..|].
    rewrite Hout; [done|]. intros Hin'. by eapply Hns.
  - intros i sq Hi Hph.
    destruct (decide (i ∈ slice0 (Qfloor (random rng * 6) + 2)
                (sortRandom rng (getNeighbors width height horizontal vertical x y))))
      as [Hsel|Hsel].
    + destruct (Hin i Hsel) as (t & Hsi & _). rewrite Hsi in Hi. injection Hi as <-. done.
    + rewrite Hout in Hi by done. by eapply Hplain.
Qed.

Lemma responsive_leave_result (c : Responsive.Component) :
  consistentResponsive c ->
  let c' := Responsive.handleMouseLeave c in
  Responsive.lastHoveredSquareRef c' = None /\
  Responsive.isMobile c' = Responsive.isMobile c /\
  nextId (Responsive.host c') = nextId (Responsive.host c) /\
  pending (Responsive.host c') = ∅ /\
  (forall i, Responsive.squaresState c' !! i
     = (fun _ => {| state := fading; timeoutId := None |}) <$> Responsive.squaresState c !! i).
Proof.
  intros [Hrec Hiss Hs Hplain] c'. subst c'.
  unfold Responsive.handleMouseLeave, Responsive.setSquaresState. simpl.
  destruct (leaveUpdaterSimple _ _) as [s' h'] eqn:Hrun. unfold leaveUpdaterSimple in Hrun.
  simpl. apply leaveSimple_loop in Hrun
    as (Hnow & Hnext & Hframe & Hnone & Hfad & Hhl & Hpend); [|apply NoDup_objectKeys].
  split; [done|]. split; [done|]. split; [done|]. split.
  - apply map_empty. intros t. destruct (pending h' !! t) as [tm|] eqn:Hp; [exfalso|done].
    apply Hpend in Hp as [Hp Hns]. pose proof (Hrec t tm Hp) as Hr. unfold recordedFade in Hr.
    destruct (callback tm) as [index|index|index]; [done..|].
    eapply Hns; [|exact Hr|done]. apply elem_of_objectKeys. eauto.
  - intros i. destruct (Responsive.squaresState c !! i) as [[[|] tid]|] eqn:Hi; simpl.
    + eapply Hhl; [|done]. apply elem_of_objectKeys. eauto.
    + rewrite (Hfad i tid Hi). pose proof (Hplain i _ Hi eq_refl) as Htid.
      simpl in Htid. by subst tid.
    + by apply Hnone.
Qed.

Lemma consistentResponsive_leave (c : Responsive.Component) :
  consistentResponsive c -> consistentResponsive (Responsive.handleMouseLeave c).
Proof.
  intros Hc. destruct (responsive_leave_result c Hc) as (_ & _ & Hnext & Hpend & Hentries).
  split.
  - intros t tm Hp. rewrite Hpend in Hp. done.
  - intros t tm Hp. rewrite Hpend in Hp. done.
  - intros i sq t Hi Ht. rewrite Hentries in Hi.
    destruct (Responsive.squaresState c !! i); simpl in Hi; [|done].
    injection Hi as <-. done.
  - intros i sq Hi _. rewrite Hentries in Hi.
    destruct (Responsive.squaresState c !! i); simpl in Hi; [|done].
    by injection Hi as <-.
Qed.

Lemma consistentResponsive_timerFires (t : TimeoutId) (tm : Timer) (c : Responsive.Component) :
  consistentResponsive c -> pending (Responsive.host c) !! t = Some tm ->
  consistentResponsive (ResponsiveEvents.timerFires t tm c) /\
  exists index, callback tm = FadeTimeout index /\
    Responsive.squaresState (ResponsiveEvents.timerFires t tm c)
      = <[index := {| state := fading; timeoutId := None |}]> (Responsive.squaresState c).
Proof.
  intros [Hrec Hiss Hs Hplain] Hp.
  pose proof (Hrec t tm Hp) as Ht.
  assert (forall t' tm', t' <> t -> pending (Responsive.host c) !! t' = Some tm' ->
            target (callback tm') <> target (callback tm)) as Hother.
  { intros t' tm' Hne Hp' Heq. apply Hne.
    eapply recordedFade_unique; [by apply Hrec..|done]. }
  unfold ResponsiveEvents.timerFires, Responsive.setSquaresState. simpl.
  unfold recordedFade in Ht. destruct (callback tm) as [index|index|index] eqn:Hcb;
    simpl in *; [done..|].
  unfold fadeUpdater, ret. rewrite Ht. simpl. split; [|by exists index].
  split; unfold issued, handlesIssued; simpl.
  - intros t' tm' Hp'. apply lookup_delete_Some in Hp' as [Hne' Hp'].
    pose proof (Hrec t' tm' Hp') as Hr'. unfold recordedFade in *.
    destruct (callback tm') as [i'|i'|i'] eqn:Hcb'; [done..|].
    rewrite lookup_insert_ne; [done|]. intros ->.
    apply (Hother t' tm'); [congruence|done|by rewrite Hcb'].
  - intros t' tm' Hp'. apply lookup_delete_Some in Hp' as [_ Hp']. by eapply Hiss.
  - intros i sq t' Hi Ht'. destruct (decide (i = index)) as [->|Hne].
    + rewrite lookup_insert_eq in Hi. by injection Hi as <-.
    + rewrite lookup_insert_ne in Hi by done. by eapply Hs.
  - intros i sq Hi Hph. destruct (decide (i = index)) as [->|Hne].
    + rewrite lookup_insert_eq in Hi. by injection Hi as <-.
    + rewrite lookup_insert_ne in Hi by done. by eapply Hplain.
Qed.

Lemma consistentResponsive_handle (e : ResponsiveEvents.Event) (c c' : Responsive.Component) :
  consistentResponsive c -> ResponsiveEvents.validEvent e ->
  ResponsiveEvents.handle width height horizontal vertical e c = Some c' ->
  consistentResponsive c'.
Proof.
  intros Hc Hvalid Hstep. destruct e as [[x y rng|]|t|t|w]; simpl in *.
  - injection Hstep as <-. unfold Responsive.svgProps.
    destruct (Responsive.isMobile c); simpl; [done|]. by apply consistentResponsive_move.
  - injection Hstep as <-. unfold Responsive.svgProps.
    destruct (Responsive.isMobile c); simpl; [done|]. by apply consistentResponsive_leave.
  - destruct (pending (Responsive.host c) !! t) as [tm|] eqn:Hp; [|done].
    case_decide; [|done]. injection Hstep as <-. by apply consistentResponsive_timerFires.
  - case_decide; [|done]. injection Hstep as <-. destruct Hc. by split.
  - injection Hstep as <-. destruct Hc. by split.
Qed.

Lemma reachable_consistentResponsive (c : Responsive.Component) :
  ResponsiveEvents.reachable width height horizontal vertical c -> consistentResponsive c.
Proof.
  induction 1 as [|e c c' _ IH Hvalid Hstep]; [apply consistentResponsive_mount|].
  by eapply consistentResponsive_handle.
Qed.

End ResponsiveInvariant.

Section ResponsiveRuns.

Variables (width height : Q) (horizontal vertical : Z).

Lemma responsive_step_keeps_entries (e : ResponsiveEvents.Event)
    (c c' : Responsive.Component) (i : Z) :
  consistentResponsive c -> ResponsiveEvents.validEvent e ->
  ResponsiveEvents.handle width height horizontal vertical e c = Some c' ->
  is_Some (Responsive.squaresState c !! i) -> is_Some (Responsive.squaresState c' !! i).
Proof.
  intros Hc Hvalid Hstep Hi. destruct e as [[x y rng|]|t|t|w]; simpl in *.
  - injection Hstep as <-. unfold Responsive.svgProps.
    destruct (Responsive.isMobile c); simpl; [done|].
    unfold Responsive.handleMouseMove. case_decide; [done|].
    unfold Responsive.setSquaresState. simpl.
    destruct (highlightUpdater _ _ _ _ _) as [s' h'] eqn:Hrun. simpl.
    destruct Hc as [_ Hiss Hs _].
    apply highlightUpdater_spec in Hrun
      as (_ & _ & _ & _ & Hout & Hin & _ & _);
      [|by apply NoDup_randomNeighbors|done..].
    destruct (decide (i ∈ slice0 (Qfloor (random rng * 6) + 2)
                (sortRandom rng (getNeighbors width height horizontal vertical x y))))
      as [Hsel|Hsel].
    + destruct (Hin i Hsel) as (t & Hsi & _). by rewrite Hsi.
    + by rewrite Hout.
  - injection Hstep as <-. unfold Responsive.svgProps.
    destruct (Responsive.isMobile c); simpl; [done|].
    destruct (responsive_leave_result c Hc) as (_ & _ & _ & _ & Hentries).
    rewrite Hentries. destruct Hi as [sq ->]. by eexists.
  - destruct (pending (Responsive.host c) !! t) as [tm|] eqn:Hp; [|done].
    case_decide; [|done]. injection Hstep as <-.
    destruct (consistentResponsive_timerFires t tm c Hc Hp) as (_ & index & _ & ->).
    apply lookup_insert_is_Some. destruct (decide (index = i)); auto.
  - case_decide; [|done]. by injection Hstep as <-.
  - by injection Hstep as <-.
Qed.

End ResponsiveRuns.

(** X14: the responsive variant never removes an entry. Along any run
    from a reachable state, a cell that has an entry in the mapping keeps
    one: once highlighted, a cell is never idle again. *)
Theorem responsive_entries_never_removed (width height : Q) (horizontal vertical : Z)
    (es : list ResponsiveEvents.Event) (c c' : Responsive.Component) (i : Z) :
  ResponsiveEvents.reachable width height horizontal vertical c ->
  Forall ResponsiveEvents.validEvent es ->
  ResponsiveEvents.run width height horizontal vertical es c = Some c' ->
  is_Some (Responsive.squaresState c !! i) ->
  is_Some (Responsive.squaresState c' !! i).
Proof.
  intros Hreach Hes. pose proof (reachable_consistentResponsive _ _ _ _ _ Hreach) as Hc.
  clear Hreach. revert c Hc.
  induction Hes as [|e es He Hes IH]; intros c Hc Hrun Hi; simpl in Hrun.
  - by injection Hrun as <-.
  - destruct (ResponsiveEvents.handle _ _ _ _ e c) as [c1|] eqn:Hstep; [|done].
    apply (IH c1); [by eapply consistentResponsive_handle|done|].
    by eapply responsive_step_keeps_entries.
Qed.

Lemma reachable_responsiveHighlighted :
  ResponsiveEvents.reachable 10 10 2 1 responsiveHighlighted.
Proof.
  apply (ResponsiveEvents.reachable_step 10 10 2 1
           (ResponsiveEvents.Pointer (Move 5 5 firstRandom)) Responsive.mount).
  - apply ResponsiveEvents.reachable_mount.
  - apply validRandom_firstRandom.
  - reflexivity.
Qed.

Lemma responsive_entries_never_removed_witness :
  Responsive.squaresState responsiveHighlighted !! 1
    = Some {| state := highlighted; timeoutId := Some 1%positive |} /\
  ResponsiveEvents.run 10 10 2 1 responsiveIdle responsiveHighlighted = Some responsiveFaded /\
  is_Some (Responsive.squaresState responsiveFaded !! 1).
Proof.
  split; [reflexivity|].
  assert (ResponsiveEvents.run 10 10 2 1 responsiveIdle responsiveHighlighted
            = Some responsiveFaded) as Hrun by (vm_compute; reflexivity).
  split; [exact Hrun|].
  apply (responsive_entries_never_removed 10 10 2 1 responsiveIdle
           responsiveHighlighted responsiveFaded 1).
  - apply reachable_responsiveHighlighted.
  - repeat constructor.
  - exact Hrun.
  - by eexists.
Defined.



(** ** The final variant: how many cells and timers *)





(** ** The first variant and the threshold *)

(** X18: the first variant processes every pointer move, also one that
    stays in the same cell. Whatever the state (with identifiers that
    [setTimeout] has returned), each selected neighbour ends highlighted
    with a new timer, due 400 time units from now, and a timer that its
    entry stored before is no longer pending. *)
Theorem first_move_always_processes (width height : Q) (horizontal vertical : Z)
    (x y : Q) (rng : Random) (c : First.Component) (index : Z) :
  validRandom rng ->
  issued (First.host c) -> handlesIssued (First.squaresState c) (First.host c) ->
  index ∈ slice0 (Qfloor (random rng * 3) + 0)
            (sortRandom rng (getNeighbors width height horizontal vertical x y)) ->
  let c' := First.handleMouseMove width height horizontal vertical x y rng c in
  (exists t,
     (nextId (First.host c) <= t)%positive /\
     First.squaresState c' !! index
       = Some {| state := highlighted; timeoutId := Some t |} /\
     pending (First.host c') !! t
       = Some {| due := now (First.host c) + 400; callback := FadeTimeout index |}) /\
  (forall sq t, First.squaresState c !! index = Some sq -> timeoutId sq = Some t ->
     pending (First.host c') !! t = None).
Proof.
  intros Hrng Hiss Hs Hsel c'. subst c'.
  unfold First.handleMouseMove, First.setSquaresState.
  destruct (highlightUpdater _ _ _ _ _) as [s' h'] eqn:Hrun. simpl.
  apply highlightUpdater_spec in Hrun
    as (_ & _ & _ & _ & _ & Hin & Hpend & _);
    [|by apply NoDup_randomNeighbors|done..].
  split.
  - destruct (Hin index Hsel) as (t & Hsi & Hp & Hge). by exists t.
  - intros sq t Hsq Ht. destruct (pending h' !! t) as [tm|] eqn:Hp; [exfalso|done].
    destruct (Hpend t tm Hp) as [(_ & _ & Hns)|(Hge & _)].
    + by eapply Hns.
    + pose proof (Hs index sq t Hsq Ht). lia.
Qed.

Lemma first_move_always_processes_witness :
  let c := First.handleMouseMove 10 10 3 1 5 5 halfRandom First.mount in
  let c' := First.handleMouseMove 10 10 3 1 7 2 halfRandom c in
  cellIndex 10 10 3 5 5 = cellIndex 10 10 3 7 2 /\
  (exists t,
     (nextId (First.host c) <= t)%positive /\
     First.squaresState c' !! 1 = Some {| state := highlighted; timeoutId := Some t |} /\
     pending (First.host c') !! t
       = Some {| due := now (First.host c) + 400; callback := FadeTimeout 1 |}) /\
  (forall sq t, First.squaresState c !! 1 = Some sq -> timeoutId sq = Some t ->
     pending (First.host c') !! t = None).
Proof.
  intros c c'. split; [reflexivity|].
  apply (first_move_always_processes 10 10 3 1 7 2 halfRandom c 1).
  - split; [intros l; reflexivity|]. split; [unfold Qle|unfold Qlt]; simpl; lia.
  - intros t tm Hp. vm_compute in Hp.
    destruct t as [t|t|]; try destruct t; simpl in Hp; try discriminate. reflexivity.
  - intros i sq t Hi Ht.
    assert (First.squaresState c
              = {[ 1 := {| state := highlighted; timeoutId := Some 1%positive |} ]}) as Hc
      by (vm_compute; reflexivity).
    rewrite Hc in Hi. apply lookup_singleton_Some in Hi as [_ <-].
    injection Ht as <-. reflexivity.
  - vm_compute. left.
Defined.

(** In the responsive variant the handlers are attached exactly when
    the window that the hook has seen is at least 1024 pixels wide; a
    window of exactly 1024 pixels keeps them. *)
Lemma handlers_attached_iff_wide (width height : Q) (horizontal vertical : Z)
    (innerWidth : Z) (c : Responsive.Component) :
  let c' := Responsive.viewportChecked innerWidth c in
  (is_Some (onMouseMove (Responsive.svgProps width height horizontal vertical c'))
     <-> 1024 <= innerWidth) /\
  (is_Some (onMouseLeave (Responsive.svgProps width height horizontal vertical c'))
     <-> 1024 <= innerWidth) /\
  Responsive.squaresState c' = Responsive.squaresState c /\
  Responsive.host c' = Responsive.host c.
Proof.
  intros c'. subst c'. unfold Responsive.svgProps, Responsive.viewportChecked. simpl.
  unfold UseIsMobile.checkIsMobile, UseIsMobile.defaultMaxWidth.
  destruct (bool_decide_reflect (innerWidth < 1024)) as [Hlt|Hge]; simpl.
  - repeat split; try done; try (intros [? [=]]); lia.
  - repeat split; try done; try (intros _; by eexists); lia.
Qed.
